(** * Officer search reconciler: a shallow embedding and its properties

    The module under study is the JavaScript reconciler that looks up
    individuals in the Companies House officer search
    ([initialise(parameters, requestor, alert)] and [details]).

    Modelling conventions.
    - JavaScript scalars are the inductive [Value]; numbers are the integers
      (JSON counts, years, months, line numbers), rendered in decimal.
      [Array(n)] throws a RangeError unless [0 <= n <= 2^32 - 1].
    - JavaScript strings are [string]: sequences of code units below 256,
      each character of a [string] being one UTF-16 code unit of the
      Latin-1 range; text with other code units is outside the model.  On
      that range [toLowerCase] (A-Z and the accented capitals), [trim]
      (tab to carriage return, space, no-break space) and the character
      class [[a-z ]] act as they do in JavaScript.
    - The closure state of [initialise] (the rotating index [next]) and the
      messages handed to [alert] are the two fields of [State]; synchronous
      code is a state transformer, an [async] function a state transformer
      that ends in a [Settlement].
    - A thrown exception is a value of [Exn]. *)

From Stdlib Require Import ZArith Ascii String List Lia Permutation.
From stdpp Require Import base tactics option list strings gmap pretty.

Local Open Scope string_scope.
Local Open Scope Z_scope.

(** ** JavaScript values *)

Inductive Value : Type :=
  | VUndefined
  | VNull
  | VBool (b : bool)
  | VNum (z : Z)
  | VStr (s : string).

#[global] Instance Value_eq_dec : EqDecision Value.
Proof. solve_decision. Defined.

(** Strict equality [===] on scalars. *)
Definition strict_eq (a b : Value) : bool := bool_decide (a = b).

(** [ToBoolean]: what [!x], [||] and [filter(x => x)] look at. *)
Definition truthy (v : Value) : bool :=
  match v with
  | VUndefined | VNull => false
  | VBool b => b
  | VNum z => negb (z =? 0)
  | VStr s => negb (bool_decide (s = ""))
  end.

(** [ToString], as applied by template literals, [join] and [toString()]. *)
Definition to_string (v : Value) : string :=
  match v with
  | VUndefined => "undefined"
  | VNull => "null"
  | VBool true => "true"
  | VBool false => "false"
  | VNum z => pretty z
  | VStr s => s
  end.

(** A missing property reads as [undefined]. *)
Definition of_option (o : option string) : Value :=
  match o with
  | Some s => VStr s
  | None => VUndefined
  end.

Inductive Exn : Type :=
  | Error (message : string)
  | TypeError (message : string)
  | RangeError (message : string).

(** The outcome of synchronous code that may throw. *)
Inductive Result (A : Type) : Type :=
  | Ok (a : A)
  | Throw (e : Exn).
Arguments Ok {A} a.
Arguments Throw {A} e.

Definition rbind {A B} (m : Result A) (f : A → Result B) : Result B :=
  match m with
  | Ok a => f a
  | Throw e => Throw e
  end.

(** [xs.filter(f)] for a callback that may throw: the callback runs on the
    elements from left to right and the first exception escapes. *)
Fixpoint filterR {A} (f : A → Result bool) (xs : list A) : Result (list A) :=
  match xs with
  | [] => Ok []
  | x :: xs' =>
      rbind (f x) (λ keep,
      rbind (filterR f xs') (λ rest,
      Ok (if keep then x :: rest else rest)))
  end.

(** [xs.map(f)] for a callback that may throw. *)
Fixpoint mapR {A B} (f : A → Result B) (xs : list A) : Result (list B) :=
  match xs with
  | [] => Ok []
  | x :: xs' =>
      rbind (f x) (λ y,
      rbind (mapR f xs') (λ ys,
      Ok (y :: ys)))
  end.

(** ** String methods *)

Module Str.

Definition code (c : ascii) : nat := nat_of_ascii c.

Definition lower_char (c : ascii) : ascii :=
  if ((65 <=? code c)%nat && (code c <=? 90)%nat)
     || ((192 <=? code c)%nat && (code c <=? 214)%nat)
     || ((216 <=? code c)%nat && (code c <=? 222)%nat)
  then ascii_of_nat (code c + 32)
  else c.

(** [s.toLowerCase()] *)
Fixpoint toLowerCase (s : string) : string :=
  match s with
  | EmptyString => EmptyString
  | String c s' => String (lower_char c) (toLowerCase s')
  end.

(** Membership in the character class [[a-z ]]. *)
Definition letter_or_space (c : ascii) : bool :=
  ((97 <=? code c)%nat && (code c <=? 122)%nat) || (code c =? 32)%nat.

(** [s.replace(/[^a-z ]/g, '')] *)
Fixpoint strip_other (s : string) : string :=
  match s with
  | EmptyString => EmptyString
  | String c s' =>
      if letter_or_space c then String c (strip_other s') else strip_other s'
  end.

(** [Some rest] when [s] is [p] followed by [rest]. *)
Fixpoint strip_prefix (p s : string) : option string :=
  match p, s with
  | EmptyString, _ => Some s
  | String a p', String b s' =>
      if bool_decide (a = b) then strip_prefix p' s' else None
  | String _ _, EmptyString => None
  end.

Definition honorifics : list string :=
  ["mr"; "ms"; "mrs"; "miss"; "dr"; "sir"].

(** The match of [/^(mr|ms|mrs|miss|dr|sir)\.? /] at the start of [s]: the
    alternatives are tried in order, the optional period greedily, and the
    matcher backtracks to the next alternative when the space is missing.
    The result is what follows the match. *)
Fixpoint match_honorific (alternatives : list string) (s : string)
  : option string :=
  match alternatives with
  | [] => None
  | h :: alternatives' =>
      match strip_prefix h s with
      | Some rest =>
          match strip_prefix ". " rest with
          | Some rest' => Some rest'
          | None =>
              match strip_prefix " " rest with
              | Some rest' => Some rest'
              | None => match_honorific alternatives' s
              end
          end
      | None => match_honorific alternatives' s
      end
  end.

(** [s.replace(/^(mr|ms|mrs|miss|dr|sir)\.? /, '')] *)
Definition strip_honorific (s : string) : string :=
  default s (match_honorific honorifics s).

(** [s.split(sep)] for a separator of one character: never empty. *)
Fixpoint split (sep : ascii) (s : string) : list string :=
  match s with
  | EmptyString => [EmptyString]
  | String c s' =>
      if bool_decide (c = sep) then EmptyString :: split sep s'
      else match split sep s' with
           | [] => [String c EmptyString]
           | w :: ws => String c w :: ws
           end
  end.

(** [s.slice(a, b)] for [0 <= a <= b]. *)
Definition slice (a b : nat) (s : string) : string :=
  String.substring a (b - a) s.

(** [s.padStart(2, '0')] *)
Definition padStart2 (s : string) : string :=
  match String.length s with
  | O => "00"
  | S O => "0" +:+ s
  | _ => s
  end.

Definition whitespace (c : ascii) : bool :=
  ((9 <=? code c)%nat && (code c <=? 13)%nat) || (code c =? 32)%nat
  || (code c =? 160)%nat.

Fixpoint trimStart (s : string) : string :=
  match s with
  | EmptyString => EmptyString
  | String c s' => if whitespace c then trimStart s' else s
  end.

Fixpoint trimEnd (s : string) : string :=
  match s with
  | EmptyString => EmptyString
  | String c s' =>
      match trimEnd s' with
      | EmptyString => if whitespace c then EmptyString else String c EmptyString
      | t => String c t
      end
  end.

(** [s.trim()] *)
Definition trim (s : string) : string := trimEnd (trimStart s).

(** [xs.join(sep)] on strings. *)
Fixpoint join (sep : string) (xs : list string) : string :=
  match xs with
  | [] => ""
  | [x] => x
  | x :: xs' => x +:+ sep +:+ join sep xs'
  end.

End Str.

(** [xs.slice(a, b)] on arrays, for [0 <= a <= b]. *)
Definition slice {A} (a b : nat) (xs : list A) : list A :=
  take (b - a) (drop a xs).

(** ** Data model *)

Record DateOfBirth : Type :=
  { year : Value; month : Value; day : Value }.

Record Links : Type := { self : Value }.

(** One item of the search result, an officer.  [links] and [date_of_birth]
    are objects that may be absent. *)
Record Individual : Type :=
  { title : Value;
    links : option Links;
    date_of_birth : option DateOfBirth;
    address_snippet : Value }.

(** The decoded body: a count and the items. *)
Record Data : Type :=
  { total_results : Z; items : list Individual }.

Record Auth : Type := { username : Value; password : string }.

Record Params : Type :=
  { q : string; items_per_page : Z; start_index : option Z }.

Record Passthrough : Type := { individualName : string; page : Z }.

Module Query.
Record t : Type :=
  { url : string; auth : Auth; params : Params; passthrough : Passthrough }.
End Query.

Module Response.
Record t : Type :=
  { status : Z; data : Data; url : string; auth : Auth;
    passthrough : Passthrough }.
End Response.

(** What the remote service answers to one call. *)
Module Reply.
Record t : Type := { status : Z; data : Data }.
End Reply.

(** The argument of the [messages] callback: the call and its answer. *)
Record ErrorEvent : Type := { config : Query.t; response : Reply.t }.

Module Entry.
Record t : Type := { data : gmap string string; line : Z }.
End Entry.

(** [parameters.apiKey]: one key (or nothing) or an array of keys. *)
Inductive ApiKey : Type :=
  | Scalar (v : Value)
  | Array (vs : list Value).

Record Parameters : Type :=
  { apiKey : ApiKey;
    individualNameField : Value;
    dateOfBirthField : Value;
    nonMiddleNameMatch : Value;
    preciseMatch : Value }.

(** The object handed to [alert]. *)
Record Diagnostic : Type := { message : string; importance : string }.

(** A JavaScript object literal, keys in insertion order. *)
Definition OutputRow : Type := list (string * Value).

(** The value of the closure variable [next]: an index, or [NaN]. *)
Inductive Index : Type :=
  | Idx (i : nat)
  | NaN.

Record State : Type := { next : Index; alerts : list Diagnostic }.

Definition initial : State := {| next := Idx 0; alerts := [] |}.

(** [alert(d)] *)
Definition alert (d : Diagnostic) (s : State) : State :=
  {| next := next s; alerts := app (alerts s) [d] |}.

(** ** Promises *)

Inductive Settlement (A : Type) : Type :=
  | Fulfilled (a : A)
  | Rejected (e : Exn)
  | Pending.
Arguments Fulfilled {A} a.
Arguments Rejected {A} e.
Arguments Pending {A}.

Definition Async (A : Type) : Type := State → Settlement A * State.

Definition resolve {A} (a : A) : Async A := λ s, (Fulfilled a, s).

(** [await m] followed by [f]. *)
Definition abind {A B} (m : Async A) (f : A → Async B) : Async B :=
  λ s, match m s with
       | (Fulfilled a, s') => f a s'
       | (Rejected e, s') => (Rejected e, s')
       | (Pending, s') => (Pending, s')
       end.

(** An exception thrown inside an [async] function rejects its promise. *)
Definition settle {A} (r : Result A) : Async A :=
  λ s, match r with
       | Ok a => (Fulfilled a, s)
       | Throw e => (Rejected e, s)
       end.

Notation "'await' x := m 'in' f" := (abind m (λ x, f))
  (at level 10, x name, m at level 100, f at level 200, only parsing).

(** [Promise.all(promises)].  The promises settle in the order [completion]
    (positions in [promises]); a fulfilment stores its value at the promise's
    own position and the result is fulfilled, with the stored values in
    position order, as soon as every position is filled; the first rejection
    rejects the result.  A position that settles a second time is ignored. *)
Section PromiseAll.
Context {A : Type}.
Variable promises : list (Async A).

Definition filled (values : list (option A)) : option (list A) :=
  mapM id values.

Fixpoint settle_in_order (completion : list nat) (values : list (option A))
  : Async (list A) :=
  λ s,
  match completion with
  | [] => (Pending, s)
  | i :: completion' =>
      match promises !! i, values !! i with
      | Some p, Some None =>
          match p s with
          | (Fulfilled a, s') =>
              let values' := <[i := Some a]> values in
              match filled values' with
              | Some result => (Fulfilled result, s')
              | None => settle_in_order completion' values' s'
              end
          | (Rejected e, s') => (Rejected e, s')
          | (Pending, s') => settle_in_order completion' values s'
          end
      | _, _ => settle_in_order completion' values s
      end
  end.

Definition Promise_all (completion : list nat) : Async (list A) :=
  match promises with
  | [] => resolve []
  | _ => settle_in_order completion (replicate (length promises) None)
  end.
End PromiseAll.

(** ** The request executor *)

Module RequestorConfig.
Record t : Type :=
  { limit : nat; messages : ErrorEvent → Result (option string) }.
End RequestorConfig.

(** Modelled from the spec: [requestor], the factory of the request executor,
    is handed to [initialise] by its caller and is not part of the module.
    Following the Request Executor's contract: the executor performs the
    remote call [http] and classifies the answer with the [messages] callback
    of its configuration.  A failure raised by the callback is raised by
    the call; a message returned by it is surfaced as a diagnostic (of
    importance [importance]) and the call yields no Response; otherwise the
    call yields the Response: the decoded body with the query's url, auth
    and passthrough echoed.  Called without a query, the executor yields no
    Response (the pipeline ends with no output when the Locator found no
    identifying field).  [limit] bounds the calls in flight and has no effect
    on what a call returns. *)
Definition requestor (http : Query.t → Reply.t) (importance : string)
    (config : RequestorConfig.t) (location : option Query.t)
  : Async (option Response.t) :=
  match location with
  | None => resolve None
  | Some query =>
      let reply := http query in
      await classified :=
        settle (RequestorConfig.messages config
                  {| config := query; response := reply |}) in
      match classified with
      | Some text =>
          λ s, (Fulfilled None,
                alert {| message := text; importance := importance |} s)
      | None =>
          resolve (Some {| Response.status := Reply.status reply;
                           Response.data := Reply.data reply;
                           Response.url := Query.url query;
                           Response.auth := Query.auth query;
                           Response.passthrough := Query.passthrough query |})
      end
  end.

(** ** The module: [initialise(parameters, requestor, alert)] *)

(** [xs.flat()] on an array whose elements are keys or arrays of keys. *)
Definition flat (xs : list ApiKey) : list Value :=
  concat (map (λ x, match x with Scalar v => [v] | Array vs => vs end) xs).

(** [a % b] on array indices: [NaN] when [b] is zero. *)
Definition remainder (a b : nat) : Index :=
  match b with
  | O => NaN
  | S _ => Idx (a mod b)
  end.

(** [Array.from(Array(n).keys())]: the indices 0 to n - 1, or the RangeError
    of [Array(n)] for a length that is negative or above 2^32 - 1. *)
Definition Array_keys (n : Z) : Result (list Z) :=
  if (n <? 0) || (2 ^ 32 - 1 <? n)
  then Throw (RangeError "Invalid array length")
  else Ok (seqZ 0 n).

(** [Math.ceil(t / 100)] *)
Definition ceil_div_100 (t : Z) : Z := - ((- t) / 100).

Section Initialise.
Variable parameters : Parameters.
(** The remote service, and the importance the executor gives to its
    per-call diagnostics. *)
Variable http : Query.t → Reply.t.
Variable callImportance : string.

Definition apiKeys : list Value := flat [apiKey parameters].

Definition apiKeysRotated : State → Value * State :=
  λ s,
  let key :=
    match next s with
    | Idx i => default VUndefined (apiKeys !! i)
    | NaN => VUndefined
    end in
  let next' :=
    match next s with
    | Idx i => remainder (i + 1) (length apiKeys)
    | NaN => NaN
    end in
  (key, {| next := next'; alerts := alerts s |}).

Definition messages (e : ErrorEvent) : Result (option string) :=
  let individual := individualName (Query.passthrough (config e)) in
  let page := page (Query.passthrough (config e)) in
  let status := Reply.status (response e) in
  if status =? 429 then Throw (Error "The rate limit has been reached")
  else if status =? 401 then
    Throw (Error ("API key " +:+ to_string (username (Query.auth (config e)))
                  +:+ " is invalid"))
  else if status >=? 400 then
    Ok (Some ("Received code " +:+ pretty status +:+ " for individual "
              +:+ individual +:+ " on page " +:+ pretty page))
  else Ok None.

Definition request : option Query.t → Async (option Response.t) :=
  requestor http callImportance
    {| RequestorConfig.limit := length apiKeys * 2;
       RequestorConfig.messages := messages |}.

(** [entry.data[field]] *)
Definition column (entry : Entry.t) (field : Value) : Value :=
  of_option (Entry.data entry !! to_string field).

Definition locate (entry : Entry.t) : State → option Query.t * State :=
  λ s,
  let missing :=
    (None,
     alert {| message := "No individual name found on line "
                         +:+ pretty (Entry.line entry);
              importance := "error" |} s) in
  match column entry (individualNameField parameters) with
  | VStr individualName =>
      if negb (truthy (VStr individualName)) then missing
      else
        let '(key, s') := apiKeysRotated s in
        (Some {| Query.url :=
                   "https://api.company-information.service.gov.uk/search/officers";
                 Query.auth := {| username := key; password := "" |};
                 Query.params := {| q := Str.trim individualName;
                                    items_per_page := 100;
                                    start_index := None |};
                 Query.passthrough :=
                   {| individualName := individualName; page := 1 |} |},
         s')
  | _ => missing
  end.

(** [Array.from(Array(pageTotal).keys()).slice(1, 10)] *)
Definition pageNumbers (pageTotal : Z) : Result (list Z) :=
  rbind (Array_keys pageTotal) (λ keys, Ok (slice 1 10 keys)).

(** The query built by the callback of [pageNumbers.map] for one page. *)
Definition pageQuery (response : Response.t) (key : Value) (page : Z)
  : Query.t :=
  {| Query.url := Response.url response;
     Query.auth := {| username := key; password := "" |};
     Query.params :=
       {| q := Str.trim (individualName (Response.passthrough response));
          items_per_page := 100;
          start_index := Some (page * 100) |};
     Query.passthrough :=
       {| individualName := individualName (Response.passthrough response);
          page := page + 1 |} |}.

(** The synchronous part of [pageNumbers.map(async page => ...)]: each
    callback draws its key and builds its query, in page order, before any
    call completes. *)
Fixpoint pageQueries (response : Response.t) (pages : list Z)
  : State → list Query.t * State :=
  λ s,
  match pages with
  | [] => ([], s)
  | page :: pages' =>
      let '(key, s1) := apiKeysRotated s in
      let '(queries, s2) := pageQueries response pages' s1 in
      (pageQuery response key page :: queries, s2)
  end.

(** [completion] is the order in which the follow-up calls complete. *)
Definition paginate (completion : list nat) (response : option Response.t)
  : Async (option (list (option Response.t))) :=
  match response with
  | None => resolve None
  | Some response =>
      if total_results (Response.data response) >? 100 then
        let pageTotal := ceil_div_100 (total_results (Response.data response)) in
        match pageNumbers pageTotal with
        | Throw e => settle (Throw e)
        | Ok pageNumbers =>
            λ s,
            let '(queries, s') := pageQueries response pageNumbers s in
            let pageRequests := map (λ query, request (Some query)) queries in
            (await pageResponses := Promise_all pageRequests completion in
             resolve (Some (Some response :: pageResponses))) s'
        end
      else resolve (Some [Some response])
  end.

(** [individual.date_of_birth?.year] and its siblings. *)
Definition dob_field (f : DateOfBirth → Value) (individual : Individual)
  : Value :=
  match date_of_birth individual with
  | Some d => f d
  | None => VUndefined
  end.

Definition byDateOfBirth (entry : Entry.t) (individual : Individual) : bool :=
  if negb (truthy (dateOfBirthField parameters))
     || negb (truthy (column entry (dateOfBirthField parameters)))
  then true
  else if negb (truthy (dob_field year individual))
          || negb (truthy (dob_field month individual))
  then false
  else
    let value := to_string (column entry (dateOfBirthField parameters)) in
    strict_eq (VStr (to_string (dob_field year individual)))
              (VStr (Str.slice 0 4 value))
    && strict_eq (VStr (Str.padStart2 (to_string (dob_field month individual))))
                 (VStr (Str.slice 5 7 value)).

(** [name?.toLowerCase().replace(...).replace(...)]: [undefined] for a
    missing name, a [TypeError] for a name that is not a string. *)
Definition normalised (name : Value) : Result Value :=
  match name with
  | VUndefined | VNull => Ok VUndefined
  | VStr s =>
      Ok (VStr (Str.strip_honorific (Str.strip_other (Str.toLowerCase s))))
  | VBool _ | VNum _ => Throw (TypeError "name.toLowerCase is not a function")
  end.

Definition byPreciseMatch (entry : Entry.t) (individual : Individual)
  : Result bool :=
  if negb (truthy (preciseMatch parameters)) then Ok true
  else
    rbind (normalised (title individual)) (λ result,
    rbind (normalised (column entry (individualNameField parameters))) (λ own,
    Ok (strict_eq result own))).

(** [name.split(' ')] on the result of [normalised]. *)
Definition tokens (name : Value) : Result (list string) :=
  match name with
  | VStr s => Ok (Str.split " " s)
  | _ => Throw (TypeError "Cannot read properties of undefined (reading 'split')")
  end.

Definition byNonMiddleNameMatch (entry : Entry.t) (individual : Individual)
  : Result bool :=
  if negb (truthy (nonMiddleNameMatch parameters)) then Ok true
  else
    rbind (normalised (column entry (individualNameField parameters)))
      (λ entryIndividualName,
    rbind (normalised (title individual)) (λ resultIndividualName,
    rbind (tokens resultIndividualName) (λ result,
    rbind (tokens entryIndividualName) (λ own,
    Ok (strict_eq (of_option (head result)) (of_option (head own))
        && strict_eq (of_option (last result)) (of_option (last own))))))).

(** [individual.links.self.split('/')[2]] *)
Definition officerID (individual : Individual) : Result Value :=
  match links individual with
  | None =>
      Throw (TypeError "Cannot read properties of undefined (reading 'self')")
  | Some l =>
      match self l with
      | VStr path => Ok (of_option (Str.split "/" path !! 2%nat))
      | VUndefined | VNull =>
          Throw (TypeError "Cannot read properties of undefined (reading 'split')")
      | VBool _ | VNum _ =>
          Throw (TypeError "individual.links.self.split is not a function")
      end
  end.

(** [[year, month, day].filter(x => x).join('-') || null] *)
Definition officerDateOfBirth (individual : Individual) : Value :=
  let components :=
    filter (λ x, truthy x = true)
      [dob_field year individual; dob_field month individual;
       dob_field day individual] in
  let joined := VStr (Str.join "-" (map to_string components)) in
  if truthy joined then joined else VNull.

Definition fields (individual : Individual) : Result OutputRow :=
  rbind (officerID individual) (λ id,
  Ok [("officerID", id);
      ("officerName", title individual);
      ("officerDateOfBirth", officerDateOfBirth individual);
      ("officerAddress", address_snippet individual)]).

Definition parse (response : option Response.t) (entry : Entry.t)
  : Result (option (list OutputRow)) :=
  match response with
  | None => Ok None
  | Some response =>
      let individuals := items (Response.data response) in
      rbind (filterR (λ i, Ok (byDateOfBirth entry i)) individuals) (λ l1,
      rbind (filterR (byPreciseMatch entry) l1) (λ l2,
      rbind (filterR (byNonMiddleNameMatch entry) l2) (λ l3,
      rbind (mapR fields l3) (λ rows,
      Ok (Some rows)))))
  end.

(** [responses.flatMap(response => parse(response, input))]: an array
    returned by the callback is spliced in, [undefined] is kept as an
    element. *)
Fixpoint flatMap_parse (responses : list (option Response.t))
    (input : Entry.t) : Result (list (option OutputRow)) :=
  match responses with
  | [] => Ok []
  | response :: responses' =>
      rbind (parse response input) (λ parsed,
      rbind (flatMap_parse responses' input) (λ rest,
      Ok (app (match parsed with
               | Some rows => map Some rows
               | None => [None]
               end) rest)))
  end.

Definition run (completion : list nat) (input : Entry.t)
  : Async (option (list (option OutputRow))) :=
  λ s,
  let '(dataLocated, s1) := locate input s in
  (await dataLocatedRequested := request dataLocated in
   await dataLocatedPaginated := paginate completion dataLocatedRequested in
   match dataLocatedPaginated with
   | None => resolve None
   | Some responses =>
       await dataParsed := settle (flatMap_parse responses input) in
       resolve (Some dataParsed)
   end) s1.
End Initialise.

(** ** The module's self-description *)



(** ** Auxiliary notions used by the statements *)

(** [n] successive calls of the rotator's [next()], in order. *)
Fixpoint calls (parameters : Parameters) (n : nat) (s : State)
  : list Value * State :=
  match n with
  | O => ([], s)
  | S n' =>
      let '(key, s1) := apiKeysRotated parameters s in
      let '(keys, s2) := calls parameters n' s1 in
      (key :: keys, s2)
  end.

(** The Response the executor builds from a query and the service's answer. *)
Definition response_of (query : Query.t) (reply : Reply.t) : Response.t :=
  {| Response.status := Reply.status reply;
     Response.data := Reply.data reply;
     Response.url := Query.url query;
     Response.auth := Query.auth query;
     Response.passthrough := Query.passthrough query |}.

(** ** Fixtures *)

Definition no_keys : Parameters :=
  {| apiKey := Array [];
     individualNameField := VStr "individualName";
     dateOfBirthField := VUndefined;
     nonMiddleNameMatch := VUndefined;
     preciseMatch := VUndefined |}.

(** A service that answers every call with the same status and body. *)
Definition answering (status : Z) (body : Data) : Query.t → Reply.t :=
  λ _, {| Reply.status := status; Reply.data := body |}.

Definition no_results : Data := {| total_results := 0; items := [] |}.

Definition one_key : Parameters :=
  {| apiKey := Scalar (VStr "K");
     individualNameField := VStr "individualName";
     dateOfBirthField := VUndefined;
     nonMiddleNameMatch := VUndefined;
     preciseMatch := VUndefined |}.

Definition first_query (subject : string) : Query.t :=
  {| Query.url := "https://api.company-information.service.gov.uk/search/officers";
     Query.auth := {| username := VStr "K"; password := "" |};
     Query.params := {| q := subject; items_per_page := 100; start_index := None |};
     Query.passthrough := {| individualName := subject; page := 1 |} |}.

(** An entry with the one column [individualName]. *)
Definition named (individualName : string) (line : Z) : Entry.t :=
  {| Entry.data := {[ "individualName" := individualName ]};
     Entry.line := line |}.

(** A candidate with nothing but a display name. *)
Definition titled (title : Value) : Individual :=
  {| title := title; links := None; date_of_birth := None;
     address_snippet := VUndefined |}.

Definition strict_names : Parameters :=
  {| apiKey := Scalar (VStr "K");
     individualNameField := VStr "individualName";
     dateOfBirthField := VUndefined;
     nonMiddleNameMatch := VBool true;
     preciseMatch := VBool true |}.

Definition with_birth_dates : Parameters :=
  {| apiKey := Scalar (VStr "K");
     individualNameField := VStr "individualName";
     dateOfBirthField := VStr "dateOfBirth";
     nonMiddleNameMatch := VUndefined;
     preciseMatch := VUndefined |}.

Definition born (individualName dateOfBirth : string) (line : Z) : Entry.t :=
  {| Entry.data := {[ "individualName" := individualName;
                      "dateOfBirth" := dateOfBirth ]};
     Entry.line := line |}.

Definition born_in (y m : Z) : Individual :=
  {| title := VStr "John Smith"; links := None;
     date_of_birth := Some {| year := VNum y; month := VNum m; day := VUndefined |};
     address_snippet := VUndefined |}.

Definition untitled : Individual :=
  {| title := VUndefined;
     links := Some {| self := VStr "/officers/abc123" |};
     date_of_birth := None;
     address_snippet := VUndefined |}.

Definition page_of (individuals : list Individual) : Response.t :=
  response_of (first_query "John Smith")
    {| Reply.status := 200;
       Reply.data := {| total_results := Z.of_nat (length individuals);
                        items := individuals |} |}.

Definition john_smith : Individual :=
  {| title := VStr "John Smith";
     links := Some {| self := VStr "/officers/abc123" |};
     date_of_birth :=
       Some {| year := VNum 1980; month := VNum 5; day := VUndefined |};
     address_snippet := VStr "1 Road" |}.

Definition john_smith_body : Data :=
  {| total_results := 1; items := [john_smith] |}.

(** What a promise settles to once its synchronous outcome is known. *)
Definition settlement_of {A} (r : Result A) : Settlement A :=
  match r with
  | Ok a => Fulfilled a
  | Throw e => Rejected e
  end.

(** What one call of the executor comes to, as a function of its query. *)
Definition outcome (http : Query.t → Reply.t) (query : Query.t)
  : Result (option Response.t) :=
  rbind (messages {| config := query; response := http query |}) (λ text,
  Ok (match text with
      | Some _ => None
      | None => Some (response_of query (http query))
      end)).

(** The value of a call that is not fatal: no Response for a status from 400
    up, the Response otherwise. *)
Definition answer (http : Query.t → Reply.t) (query : Query.t)
  : option Response.t :=
  if Reply.status (http query) >=? 400 then None
  else Some (response_of query (http query)).

Definition fatal (http : Query.t → Reply.t) (query : Query.t) : Prop :=
  Reply.status (http query) = 429 ∨ Reply.status (http query) = 401.

Definition three_keys : Parameters :=
  {| apiKey := Array [VStr "A"; VStr "B"; VStr "C"];
     individualNameField := VStr "individualName";
     dateOfBirthField := VUndefined;
     nonMiddleNameMatch := VUndefined;
     preciseMatch := VUndefined |}.

(** A first page announcing [total] results. *)
Definition first_page (total : Z) : Response.t :=
  response_of (first_query "John Smith")
    {| Reply.status := 200;
       Reply.data := {| total_results := total; items := [] |} |}.

(** ** Further fixtures *)

Definition in_state (i : nat) (log : list Diagnostic) : State :=
  {| next := Idx i; alerts := log |}.


(** [alert] called on each diagnostic of a list, in order. *)
Definition append_alerts (log : list Diagnostic) (s : State) : State :=
  foldl (λ s d, alert d s) s log.

(** The diagnostics of the act at position [i], none out of range. *)
Definition log_at {A} (acts : list (A * list Diagnostic)) (i : nat)
  : list Diagnostic :=
  default [] (snd <$> acts !! i).

(** The diagnostics one call of the executor hands to [alert]. *)
Definition diagnostics_of (http : Query.t → Reply.t) (callImportance : string)
    (query : Query.t) : list Diagnostic :=
  match messages {| config := query; response := http query |} with
  | Ok (Some text) => [ {| message := text; importance := callImportance |} ]
  | _ => []
  end.

(** The message the executor alerts for a call that failed without being
    fatal. *)
Definition failure_text (http : Query.t → Reply.t) (query : Query.t) : string :=
  "Received code " +:+ pretty (Reply.status (http query))
  +:+ " for individual " +:+ individualName (Query.passthrough query)
  +:+ " on page " +:+ pretty (page (Query.passthrough query)).

(** A service whose answer depends on the page asked for. *)
Definition by_page (first rest : Reply.t) : Query.t → Reply.t :=
  λ query, if page (Query.passthrough query) =? 1 then first else rest.

Definition many_smiths : Reply.t :=
  {| Reply.status := 200;
     Reply.data := {| total_results := 250; items := [john_smith] |} |}.

Definition unavailable : Reply.t :=
  {| Reply.status := 503; Reply.data := no_results |}.

(** A filter callback's result read as a boolean: kept only on [true]. *)
Definition holds (r : Result bool) : bool :=
  match r with
  | Ok true => true
  | _ => false
  end.

(** The candidate passes the three filters of [parse]. *)
Definition passes (parameters : Parameters) (entry : Entry.t)
    (individual : Individual) : bool :=
  byDateOfBirth parameters entry individual
  && holds (byPreciseMatch parameters entry individual)
  && holds (byNonMiddleNameMatch parameters entry individual).

(** A candidate as the service documents it: a display name and a link of
    its own, both strings. *)
Definition well_formed (individual : Individual) : Prop :=
  (∃ name, title individual = VStr name)
  ∧ (∃ l path, links individual = Some l ∧ self l = VStr path).

(** Every character of the string satisfies [P]. *)
Fixpoint all_chars (P : ascii → bool) (s : string) : bool :=
  match s with
  | EmptyString => true
  | String c s' => P c && all_chars P s'
  end.

(** The honorific pattern without its optional period,
    [/^(mr|ms|mrs|miss|dr|sir) /]. *)
Fixpoint match_honorific_plain (alternatives : list string) (s : string)
  : option string :=
  match alternatives with
  | [] => None
  | h :: alternatives' =>
      match Str.strip_prefix h s with
      | Some rest =>
          match Str.strip_prefix " " rest with
          | Some rest' => Some rest'
          | None => match_honorific_plain alternatives' s
          end
      | None => match_honorific_plain alternatives' s
      end
  end.

Definition not_slash (c : ascii) : bool := negb (bool_decide (c = "/"%char)).

(** An ISO 8601 calendar date, for a year of four digits. *)
Definition iso_date (y m d : Z) : string :=
  pretty y +:+ "-" +:+ Str.padStart2 (pretty m) +:+ "-"
  +:+ Str.padStart2 (pretty d).

Definition born_on (y m : Z) (d : Value) : Individual :=
  {| title := VStr "John Smith"; links := None;
     date_of_birth := Some {| year := VNum y; month := VNum m; day := d |};
     address_snippet := VUndefined |}.

Definition linked (path : string) : Individual :=
  {| title := VStr "John Smith"; links := Some {| self := VStr path |};
     date_of_birth := None; address_snippet := VUndefined |}.

(** ** The OpenCorporates reconciler: [module.exports = parameters => run]

    The earlier reconciler of individual names, against the OpenCorporates
    officer search.  It keeps no state.  The remote service is a function
    from the location to either a transport error or an answer; the body of
    an answer is taken as decoded ([JSON.parse] is outside the model).  The
    stream pipeline of [run] carries one value: an exception thrown by a
    stage, or an error raised by the call, skips the later stages and
    reaches [errors(reject)]; otherwise the rows go through [collect] to
    [each(resolve)]. *)

Module OpenCorporates.

Record Parameters : Type := { apiToken : Value; jurisdiction : Value }.

Module Query.
Record t : Type := { individualName : string; individualJurisdiction : Value }.
End Query.

Module Location.
Record t : Type := { uri : string; query : Query.t }.
End Location.

Module Company.
Record t : Type := { name : Value; company_number : Value }.
End Company.

Module Officer.
Record t : Type := { name : Value; position : Value; company : option Company.t }.
End Officer.

(** What the service answers: a status and the decoded [results.officers]. *)
Module Reply.
Record t : Type := { statusCode : Z; officers : list Officer.t }.
End Reply.

(** The response handed on by [http]: the answer, and the request it
    answers ([response.request.query] is the location's query). *)
Module HttpResponse.
Record t : Type := { reply : Reply.t; request : Location.t }.
End HttpResponse.

(** [a || b] *)
Definition or_else (a b : Value) : Value := if truthy a then a else b.

(** [v.trim()] on a truthy value. *)
Definition trimmed (v : Value) : Result string :=
  match v with
  | VStr s => Ok (Str.trim s)
  | _ => Throw (TypeError "jurisdiction.trim is not a function")
  end.

Section Module_.
Variable parameters : Parameters.
Variable remote : Location.t → Result Reply.t.

Definition apiVersion : string := "v0.4.5".

Definition locate (entry : gmap string string) : Result Location.t :=
  match entry !! "individualName" with
  | Some individualName =>
      if negb (truthy (VStr individualName))
      then Throw (Error "No individual name given!")
      else
        let jurisdiction :=
          or_else (jurisdiction parameters)
            (of_option (entry !! "individualJurisdiction")) in
        rbind (if truthy jurisdiction
               then rbind (trimmed jurisdiction) (λ j,
                    Ok ("&jurisdiction_code=" +:+ j))
               else Ok "") (λ jurisdiction_part,
        let location :=
          "https://api.opencorporates.com/" +:+ apiVersion +:+ "/officers/search"
          +:+ "?q=" +:+ Str.trim individualName
          +:+ jurisdiction_part
          +:+ (if truthy (apiToken parameters)
               then "&api_token=" +:+ to_string (apiToken parameters)
               else "") in
        Ok {| Location.uri := location;
              Location.query :=
                {| Query.individualName := individualName;
                   Query.individualJurisdiction := jurisdiction |} |})
  | None => Throw (Error "No individual name given!")
  end.

(** [' (' + jurisdiction + ')'] when there is a jurisdiction. *)
Definition in_brackets (jurisdiction : Value) : string :=
  if truthy jurisdiction then " (" +:+ to_string jurisdiction +:+ ")" else "".

(** The wrapped callback: the failure, if any, becomes the stream's error. *)
Definition http (location : Location.t) : Result HttpResponse.t :=
  let failureSource :=
    Query.individualName (Location.query location)
    +:+ in_brackets (Query.individualJurisdiction (Location.query location)) in
  match remote location with
  | Throw error => Throw error
  | Ok response =>
      if Reply.statusCode response =? 401
      then Throw (Error ("API token is invalid: "
                         +:+ to_string (apiToken parameters)))
      else if Reply.statusCode response >=? 400
      then Throw (Error ("Error " +:+ pretty (Reply.statusCode response)
                         +:+ ": " +:+ failureSource))
      else Ok {| HttpResponse.reply := response;
                 HttpResponse.request := location |}
  end.

Definition row (officer : Officer.t) : Result OutputRow :=
  match Officer.company officer with
  | Some company =>
      Ok [("officerName", Officer.name officer);
          ("officerPosition", Officer.position officer);
          ("companyName", Company.name company);
          ("companyNumber", Company.company_number company)]
  | None =>
      Throw (TypeError "Cannot read properties of undefined (reading 'name')")
  end.

Definition parse (response : HttpResponse.t) : Result (list OutputRow) :=
  let officers := Reply.officers (HttpResponse.reply response) in
  if (length officers =? 0)%nat
  then
    let query := Location.query (HttpResponse.request response) in
    Throw (Error ("Individual not found: " +:+ Query.individualName query
                  +:+ in_brackets (Query.individualJurisdiction query)))
  else mapR row officers.

Definition run (input : gmap string string) : Settlement (list OutputRow) :=
  match rbind (locate input) (λ location,
        rbind (http location) (λ response,
        parse response)) with
  | Ok rows => Fulfilled rows
  | Throw e => Rejected e
  end.
End Module_.

End OpenCorporates.

Definition anonymous : OpenCorporates.Parameters :=
  {| OpenCorporates.apiToken := VUndefined;
     OpenCorporates.jurisdiction := VUndefined |}.

Definition british : OpenCorporates.Parameters :=
  {| OpenCorporates.apiToken := VStr "T";
     OpenCorporates.jurisdiction := VStr " gb " |}.

Definition director : OpenCorporates.Officer.t :=
  {| OpenCorporates.Officer.name := VStr "JOHN SMITH";
     OpenCorporates.Officer.position := VStr "director";
     OpenCorporates.Officer.company :=
       Some {| OpenCorporates.Company.name := VStr "ACME LTD";
               OpenCorporates.Company.company_number := VStr "01234567" |} |}.

Definition replying (status : Z) (officers : list OpenCorporates.Officer.t)
  : OpenCorporates.Location.t → Result OpenCorporates.Reply.t :=
  λ _, Ok {| OpenCorporates.Reply.statusCode := status;
             OpenCorporates.Reply.officers := officers |}.

(** * Properties *)

(** ** The credential rotator *)

Lemma apiKeysRotated_in_bounds (parameters : Parameters) (i : nat)
    (log : list Diagnostic) :
  (i < length (apiKeys parameters))%nat →
  ∃ key, apiKeys parameters !! i = Some key
         ∧ apiKeysRotated parameters {| next := Idx i; alerts := log |}
           = (key, {| next := Idx ((i + 1) mod length (apiKeys parameters));
                      alerts := log |}).
Proof.
  intros Hi.
  destruct (lookup_lt_is_Some_2 _ _ Hi) as [key Hkey].
  exists key. split; [done|].
  unfold apiKeysRotated. cbn [next alerts]. rewrite Hkey. cbn [default].
  unfold remainder.
  destruct (length (apiKeys parameters)) eqn:Hm; [lia | done].
Qed.

Lemma calls_from (parameters : Parameters) (n i : nat) (log : list Diagnostic) :
  (i < length (apiKeys parameters))%nat →
  Forall2 (λ k key,
             apiKeys parameters !! ((i + k) mod length (apiKeys parameters))%nat
             = Some key)
          (seq 0 n)
          (fst (calls parameters n {| next := Idx i; alerts := log |}))
  ∧ ∃ j, (j < length (apiKeys parameters))%nat
         ∧ snd (calls parameters n {| next := Idx i; alerts := log |})
           = {| next := Idx j; alerts := log |}.
Proof.
  revert i. induction n as [|n IH]; intros i Hi.
  - simpl. split; [constructor | eauto].
  - destruct (apiKeysRotated_in_bounds parameters i log Hi) as (key & Hkey & Hstep).
    cbn [calls]. rewrite Hstep.
    assert (Hj : ((i + 1) mod length (apiKeys parameters)
                  < length (apiKeys parameters))%nat)
      by (apply Nat.mod_upper_bound; lia).
    destruct (IH _ Hj) as [Hkeys [j [Hjlt Hst]]].
    destruct (calls parameters n _) as [keys s2] eqn:Hcalls.
    cbn [fst snd] in *. split.
    + cbn [seq]. constructor.
      * rewrite Nat.add_0_r, Nat.mod_small by done. done.
      * rewrite <- seq_shift. apply Forall2_fmap_l.
        eapply Forall2_impl; [exact Hkeys|].
        intros k key' Hk. cbn.
        rewrite <- Hk. f_equal.
        rewrite Nat.Div0.add_mod_idemp_l. f_equal. lia.
    + eauto.
Qed.

(** C6. For a non-empty credential list, successive calls of the rotator's
    [next()] from the initial state return, at call number [k] (from 0), the
    credential at position [k mod length]: round-robin order, wrapping after
    the last, and every call returns an element of the list.  With keys
    [A, B, C] seven calls return A, B, C, A, B, C, A; with one credential
    every call returns it. *)
Theorem rotator_round_robin :
  (∀ (parameters : Parameters) (n : nat),
     apiKeys parameters ≠ [] →
     Forall2 (λ k key,
                apiKeys parameters !! (k mod length (apiKeys parameters))%nat
                = Some key)
             (seq 0 n) (fst (calls parameters n initial)))
  ∧ (∀ (parameters : Parameters) (A B C : Value),
       apiKeys parameters = [A; B; C] →
       fst (calls parameters 7 initial) = [A; B; C; A; B; C; A])
  ∧ (∀ (parameters : Parameters) (A : Value) (n : nat),
       apiKeys parameters = [A] →
       fst (calls parameters n initial) = replicate n A).
Proof.
  assert (Hgen : ∀ (parameters : Parameters) (n : nat),
     apiKeys parameters ≠ [] →
     Forall2 (λ k key,
                apiKeys parameters !! (k mod length (apiKeys parameters))%nat
                = Some key)
             (seq 0 n) (fst (calls parameters n initial))).
  { intros parameters n Hne.
    assert (Hpos : (0 < length (apiKeys parameters))%nat)
      by (destruct (apiKeys parameters); [done | simpl; lia]).
    destruct (calls_from parameters n 0 [] Hpos) as [H _]. exact H. }
  split; [exact Hgen|]. split.
  - intros parameters A B C Hkeys.
    assert (Hne : apiKeys parameters ≠ []) by (rewrite Hkeys; done).
    pose proof (Hgen parameters 7%nat Hne) as H.
    rewrite Hkeys in H.
    remember (fst (calls parameters 7 initial)) as keys eqn:E. clear E.
    cbn in H.
    repeat match goal with
           | H : Forall2 _ (_ :: _) ?k |- _ =>
               apply Forall2_cons_inv_l in H;
               destruct H as (? & ? & ? & H & ?); subst k
           | H : Forall2 _ [] ?k |- _ => apply Forall2_nil_inv_l in H; subst k
           end.
    repeat match goal with
           | H : _ !! _ = Some _ |- _ => vm_compute in H; injection H as <-
           end.
    reflexivity.
  - intros parameters A n Hkeys.
    assert (Hne : apiKeys parameters ≠ []) by (rewrite Hkeys; done).
    pose proof (Hgen parameters n Hne) as H.
    rewrite Hkeys in H. cbn [length] in H.
    remember (fst (calls parameters n initial)) as keys eqn:E. clear E.
    remember (seq 0 n) as ks eqn:Eks.
    assert (Hn : length ks = n) by (subst; apply length_seq).
    clear Eks. revert n Hn.
    induction H as [|k key ks keys Hk _ IH]; intros n Hn; subst n; [done|].
    cbn. rewrite Nat.mod_1_r in Hk. cbn in Hk. simplify_eq.
    f_equal. by apply IH.
Qed.

Lemma rotator_round_robin_witness :
  fst (calls {| apiKey := Array [VStr "A"; VStr "B"; VStr "C"];
                individualNameField := VStr "individualName";
                dateOfBirthField := VUndefined;
                nonMiddleNameMatch := VUndefined;
                preciseMatch := VUndefined |} 7 initial)
  = [VStr "A"; VStr "B"; VStr "C"; VStr "A"; VStr "B"; VStr "C"; VStr "A"].
Proof.
  apply (proj1 (proj2 rotator_round_robin)). reflexivity.
Defined.

(** C10, as stated, fails when [parameters.apiKey] is the empty array:
    [[[]].flat()] is empty, so the first call of [next()] reads position 0
    of an empty array (out of bounds, [undefined]) and takes the remainder
    by zero, which leaves [NaN] in the index. *)
Lemma credential_list_empty_array :
  apiKeys no_keys = []
  ∧ apiKeys no_keys !! 0%nat = None
  ∧ remainder (0 + 1) (length (apiKeys no_keys)) = NaN
  ∧ apiKeysRotated no_keys initial
    = (VUndefined, {| next := NaN; alerts := [] |}).
Proof. repeat split. Qed.

(** C10, amended.  The credential list is [[parameters.apiKey].flat()]: a
    scalar key gives the one-element list of that key (of [undefined] when
    the key is absent), an array of keys gives its elements.  Unless
    [apiKey] is the empty array the list has at least one element, and then
    every call of [next()] reads a position inside the list and leaves an
    index inside the list (the remainder is never taken by zero).  For the
    empty array every call returns [undefined] and leaves [NaN]; no call
    throws. *)
Theorem credential_list_shape :
  (∀ (parameters : Parameters) (v : Value),
     apiKey parameters = Scalar v → apiKeys parameters = [v])
  ∧ (∀ (parameters : Parameters) (vs : list Value),
       apiKey parameters = Array vs → apiKeys parameters = vs)
  ∧ (∀ (parameters : Parameters) (n : nat),
       apiKey parameters ≠ Array [] →
       (1 ≤ length (apiKeys parameters))%nat
       ∧ Forall2 (λ k key,
                    apiKeys parameters !! (k mod length (apiKeys parameters))%nat
                    = Some key)
                 (seq 0 n) (fst (calls parameters n initial))
       ∧ ∃ j, (j < length (apiKeys parameters))%nat
              ∧ next (snd (calls parameters n initial)) = Idx j)
  ∧ (∀ (parameters : Parameters) (s : State),
       apiKey parameters = Array [] →
       apiKeysRotated parameters s
       = (VUndefined, {| next := NaN; alerts := alerts s |})).
Proof.
  split; [|split; [|split]].
  - intros parameters v H. unfold apiKeys, flat. rewrite H. reflexivity.
  - intros parameters vs H. unfold apiKeys, flat. rewrite H. cbn.
    apply app_nil_r.
  - intros parameters n Hne.
    assert (Hpos : (0 < length (apiKeys parameters))%nat).
    { unfold apiKeys, flat. destruct (apiKey parameters) as [v|[|v vs]];
        cbn; [lia | done | lia]. }
    destruct (calls_from parameters n 0 [] Hpos) as [H (j & Hj & Hs)].
    split; [lia|]. split; [exact H|].
    exists j. split; [done|]. unfold initial. rewrite Hs. reflexivity.
  - intros parameters s H. unfold apiKeysRotated, apiKeys, flat. rewrite H.
    cbn. destruct (next s); reflexivity.
Qed.

Lemma credential_list_shape_witness :
  (1 ≤ length (apiKeys {| apiKey := Scalar VUndefined;
                          individualNameField := VStr "individualName";
                          dateOfBirthField := VUndefined;
                          nonMiddleNameMatch := VUndefined;
                          preciseMatch := VUndefined |}))%nat.
Proof.
  refine (proj1 (proj1 (proj2 (proj2 credential_list_shape)) _ 3%nat _)).
  discriminate.
Defined.

(** ** The request executor *)

(** C5. The classification of a call's answer by its HTTP status: 429 raises
    the rate-limit error; 401 raises the invalid-key error, which names the
    username of the call's auth; any other status from 400 up yields only a
    message naming the individual and the page, which the executor hands to
    [alert] while the call yields no Response; a status below 400 is no
    failure and the call yields the Response. *)
Theorem request_classification (parameters : Parameters)
    (http : Query.t → Reply.t) (callImportance : string)
    (query : Query.t) (s : State) :
  let status := Reply.status (http query) in
  let e := {| config := query; response := http query |} in
  let rate_limit := Error "The rate limit has been reached" in
  let invalid_key :=
    Error ("API key " +:+ to_string (username (Query.auth query))
           +:+ " is invalid") in
  let text :=
    "Received code " +:+ pretty status +:+ " for individual "
    +:+ individualName (Query.passthrough query)
    +:+ " on page " +:+ pretty (page (Query.passthrough query)) in
  (status = 429 →
     messages e = Throw rate_limit
     ∧ request parameters http callImportance (Some query) s
       = (Rejected rate_limit, s))
  ∧ (status = 401 →
       messages e = Throw invalid_key
       ∧ request parameters http callImportance (Some query) s
         = (Rejected invalid_key, s))
  ∧ (400 ≤ status → status ≠ 429 → status ≠ 401 →
       messages e = Ok (Some text)
       ∧ request parameters http callImportance (Some query) s
         = (Fulfilled None,
            alert {| message := text; importance := callImportance |} s))
  ∧ (status < 400 →
       messages e = Ok None
       ∧ request parameters http callImportance (Some query) s
         = (Fulfilled (Some (response_of query (http query))), s)).
Proof.
  intros status e rate_limit invalid_key text.
  unfold request, requestor, abind, settle, resolve.
  cbn [RequestorConfig.messages].
  fold e. unfold messages. cbn [config response e]. fold status.
  repeat split; intros.
  all: repeat match goal with
         | |- context [?a =? ?b] => destruct (Z.eqb_spec a b); try lia
         | |- context [?a >=? ?b] =>
             let E := fresh in destruct (a >=? b) eqn:E; try lia
         end; try reflexivity.
Qed.

Lemma request_classification_witness :
  request one_key (answering 429 no_results) "error"
    (Some (first_query "Jane Doe")) initial
  = (Rejected (Error "The rate limit has been reached"), initial)
  ∧ request one_key (answering 401 no_results) "error"
      (Some (first_query "Jane Doe")) initial
    = (Rejected (Error "API key K is invalid"), initial)
  ∧ request one_key (answering 503 no_results) "error"
      (Some (first_query "Jane Doe")) initial
    = (Fulfilled None,
       alert {| message := "Received code 503 for individual Jane Doe on page 1";
                importance := "error" |} initial)
  ∧ request one_key (answering 200 no_results) "error"
      (Some (first_query "Jane Doe")) initial
    = (Fulfilled (Some (response_of (first_query "Jane Doe")
                          (answering 200 no_results (first_query "Jane Doe")))),
       initial).
Proof.
  split; [|split; [|split]].
  - apply (request_classification one_key (answering 429 no_results) "error"
             (first_query "Jane Doe") initial). reflexivity.
  - apply (request_classification one_key (answering 401 no_results) "error"
             (first_query "Jane Doe") initial). reflexivity.
  - apply (request_classification one_key (answering 503 no_results) "error"
             (first_query "Jane Doe") initial); cbn; lia.
  - apply (request_classification one_key (answering 200 no_results) "error"
             (first_query "Jane Doe") initial); cbn; lia.
Defined.

(** ** Name matching *)

Lemma column_named (individualName : string) (line : Z) :
  column (named individualName line) (VStr "individualName")
  = VStr individualName.
Proof. unfold column, named. cbn. rewrite lookup_singleton_eq. done. Qed.

Lemma lower_char_idempotent (c : ascii) :
  Str.lower_char (Str.lower_char c) = Str.lower_char c.
Proof. destruct c as [[] [] [] [] [] [] [] []]; reflexivity. Qed.

Lemma lower_char_clean (c : ascii) :
  Str.letter_or_space c = true → Str.lower_char c = c.
Proof. destruct c as [[] [] [] [] [] [] [] []]; vm_compute; congruence. Qed.

Lemma toLowerCase_idempotent (s : string) :
  Str.toLowerCase (Str.toLowerCase s) = Str.toLowerCase s.
Proof.
  induction s as [|c s IH]; [done|]. cbn [Str.toLowerCase].
  by rewrite lower_char_idempotent, IH.
Qed.

Lemma toLowerCase_app (s1 s2 : string) :
  Str.toLowerCase (s1 +:+ s2) = Str.toLowerCase s1 +:+ Str.toLowerCase s2.
Proof.
  induction s1 as [|c s1 IH]; [done|].
  change (String c s1 +:+ s2) with (String c (s1 +:+ s2)).
  cbn [Str.toLowerCase]. rewrite IH. reflexivity.
Qed.

Lemma strip_other_app (s1 s2 : string) :
  Str.strip_other (s1 +:+ s2) = Str.strip_other s1 +:+ Str.strip_other s2.
Proof.
  induction s1 as [|c s1 IH]; [done|].
  change (String c s1 +:+ s2) with (String c (s1 +:+ s2)).
  cbn [Str.strip_other]. rewrite IH.
  destruct (Str.letter_or_space c); reflexivity.
Qed.

Lemma clean_unchanged (s : string) :
  all_chars Str.letter_or_space s = true →
  Str.strip_other (Str.toLowerCase s) = s.
Proof.
  induction s as [|c s IH]; [done|]. cbn [all_chars].
  intros [Hc Hs]%andb_true_iff.
  cbn [Str.toLowerCase Str.strip_other].
  rewrite (lower_char_clean c Hc), Hc, (IH Hs). reflexivity.
Qed.

Lemma all_chars_app (P : ascii → bool) (s1 s2 : string) :
  all_chars P (s1 +:+ s2) = all_chars P s1 && all_chars P s2.
Proof.
  induction s1 as [|c s1 IH]; [done|].
  change (String c s1 +:+ s2) with (String c (s1 +:+ s2)).
  cbn [all_chars]. rewrite IH. by rewrite andb_assoc.
Qed.

Lemma strip_other_alphabet (s : string) :
  all_chars Str.letter_or_space (Str.strip_other s) = true.
Proof.
  induction s as [|c s IH]; [done|]. cbn.
  destruct (Str.letter_or_space c) eqn:Hc; [|done]. cbn. by rewrite Hc.
Qed.

Lemma strip_prefix_app (p s rest : string) :
  Str.strip_prefix p s = Some rest → s = p +:+ rest.
Proof.
  revert s. induction p as [|a p IH]; intros s; cbn [Str.strip_prefix].
  - by intros [= ->].
  - destruct s as [|b s]; [done|]. case_bool_decide as Hab; [|done].
    subst b. intros Hrest%IH. subst s. reflexivity.
Qed.

Lemma match_honorific_inv (alternatives : list string) (s rest : string) :
  Str.match_honorific alternatives s = Some rest →
  ∃ h, h ∈ alternatives
       ∧ (s = h +:+ " " +:+ rest ∨ s = h +:+ ". " +:+ rest).
Proof.
  induction alternatives as [|h alternatives IH];
    cbn [Str.match_honorific]; [done|].
  assert (Hnext : Str.match_honorific alternatives s = Some rest →
                  ∃ h0, h0 ∈ h :: alternatives
                        ∧ (s = h0 +:+ " " +:+ rest ∨ s = h0 +:+ ". " +:+ rest)).
  { intros (h0 & Hin & Hs)%IH. exists h0. split; [by right | done]. }
  destruct (Str.strip_prefix h s) as [r|] eqn:Hh; [|done].
  apply strip_prefix_app in Hh.
  destruct (Str.strip_prefix ". " r) as [r'|] eqn:Hdot.
  { intros [= ->]. apply strip_prefix_app in Hdot. subst.
    exists h. split; [left | by right]. }
  destruct (Str.strip_prefix " " r) as [r'|] eqn:Hspace; [|done].
  intros [= ->]. apply strip_prefix_app in Hspace. subst.
  exists h. split; [left | by left].
Qed.

Lemma match_honorific_space (h rest : string) :
  h ∈ Str.honorifics →
  Str.match_honorific Str.honorifics (h +:+ " " +:+ rest) = Some rest.
Proof.
  unfold Str.honorifics. rewrite !elem_of_cons, elem_of_nil.
  intros [->|[->|[->|[->|[->|[->|[]]]]]]]; vm_compute; reflexivity.
Qed.

Lemma strict_eq_of_option (x y : option string) :
  strict_eq (of_option x) (of_option y) = bool_decide (x = y).
Proof.
  unfold strict_eq. apply bool_decide_ext.
  destruct x, y; cbn; split; intros; simplify_eq; done.
Qed.

(** C7. Normalisation lowercases, removes every character outside [[a-z ]]
    and then removes one leading honorific (mr, ms, mrs, miss, dr or sir)
    with the space after it: it does not see case, nor any character that is
    not a letter or a space; it leaves a name of lowercase letters and
    spaces alone unless that name starts with an honorific and a space, and
    then gives what follows.  It maps "Dr. Jane O'Brien" and "jane obrien"
    to the same string (and "Mrs. Ann Lee" to "ann lee"; of two honorifics
    only the first goes).  The enabled exact-name filter accepts a candidate
    exactly when the two normalised names are equal; the enabled
    first/last-name filter exactly when the first pieces and the last pieces
    of the two normalised names, split at spaces, are equal.  So the
    exact-name filter accepts "Dr. Jane O'Brien" for "jane obrien" and
    rejects "Jane Marie O'Brien" for "Jane O'Brien", which the
    first/last-name filter accepts; both reject "Jane Doe" for
    "John Smith".  Each filter passes every candidate when its toggle is
    absent (or otherwise falsy). *)
Theorem name_filters :
  (∀ s : string,
     normalised (VStr s)
     = Ok (VStr (Str.strip_honorific (Str.strip_other (Str.toLowerCase s)))))
  ∧ normalised (VStr "Dr. Jane O'Brien") = Ok (VStr "jane obrien")
  ∧ normalised (VStr "jane obrien") = Ok (VStr "jane obrien")
  ∧ normalised (VStr "Mrs. Ann Lee") = Ok (VStr "ann lee")
  ∧ normalised (VStr "Sir Dr Who") = Ok (VStr "dr who")
  ∧ (∀ (parameters : Parameters) (line : Z),
       individualNameField parameters = VStr "individualName" →
       truthy (preciseMatch parameters) = true →
       byPreciseMatch parameters (named "jane obrien" line)
         (titled (VStr "Dr. Jane O'Brien")) = Ok true
       ∧ byPreciseMatch parameters (named "Dr. Jane O'Brien" line)
           (titled (VStr "jane obrien")) = Ok true)
  ∧ (∀ (parameters : Parameters) (line : Z),
       individualNameField parameters = VStr "individualName" →
       truthy (nonMiddleNameMatch parameters) = true →
       byNonMiddleNameMatch parameters (named "Jane O'Brien" line)
         (titled (VStr "Jane Marie O'Brien")) = Ok true
       ∧ byNonMiddleNameMatch parameters (named "Jane Marie O'Brien" line)
           (titled (VStr "Jane O'Brien")) = Ok true)
  ∧ (∀ (parameters : Parameters) (entry : Entry.t) (individual : Individual),
       truthy (preciseMatch parameters) = false →
       byPreciseMatch parameters entry individual = Ok true)
  ∧ (∀ (parameters : Parameters) (entry : Entry.t) (individual : Individual),
       truthy (nonMiddleNameMatch parameters) = false →
       byNonMiddleNameMatch parameters entry individual = Ok true)
  ∧ (∀ s : string,
       normalised (VStr (Str.toLowerCase s)) = normalised (VStr s))
  ∧ (∀ (s1 s2 : string) (c : ascii),
       Str.letter_or_space (Str.lower_char c) = false →
       normalised (VStr (s1 +:+ String c s2)) = normalised (VStr (s1 +:+ s2)))
  ∧ (∀ s : string,
       all_chars Str.letter_or_space s = true →
       (∀ h rest, h ∈ Str.honorifics → s ≠ h +:+ " " +:+ rest) →
       normalised (VStr s) = Ok (VStr s))
  ∧ (∀ name h rest : string,
       h ∈ Str.honorifics →
       Str.strip_other (Str.toLowerCase name) = h +:+ " " +:+ rest →
       normalised (VStr name) = Ok (VStr rest))
  ∧ (∀ (parameters : Parameters) (entry : Entry.t) (individual : Individual)
       (candidate own : string),
       truthy (preciseMatch parameters) = true →
       title individual = VStr candidate →
       column entry (individualNameField parameters) = VStr own →
       ∃ a b,
         normalised (VStr candidate) = Ok (VStr a)
         ∧ normalised (VStr own) = Ok (VStr b)
         ∧ byPreciseMatch parameters entry individual
           = Ok (bool_decide (a = b)))
  ∧ (∀ (parameters : Parameters) (entry : Entry.t) (individual : Individual)
       (candidate own : string),
       truthy (nonMiddleNameMatch parameters) = true →
       title individual = VStr candidate →
       column entry (individualNameField parameters) = VStr own →
       ∃ a b,
         normalised (VStr candidate) = Ok (VStr a)
         ∧ normalised (VStr own) = Ok (VStr b)
         ∧ byNonMiddleNameMatch parameters entry individual
           = Ok (bool_decide (head (Str.split " " a) = head (Str.split " " b))
                 && bool_decide (last (Str.split " " a)
                                 = last (Str.split " " b))))
  ∧ (∀ (parameters : Parameters) (line : Z),
       individualNameField parameters = VStr "individualName" →
       (truthy (preciseMatch parameters) = true →
        byPreciseMatch parameters (named "John Smith" line)
          (titled (VStr "Jane Doe")) = Ok false
        ∧ byPreciseMatch parameters (named "Jane O'Brien" line)
            (titled (VStr "Jane Marie O'Brien")) = Ok false)
       ∧ (truthy (nonMiddleNameMatch parameters) = true →
          byNonMiddleNameMatch parameters (named "John Smith" line)
            (titled (VStr "Jane Doe")) = Ok false
          ∧ byNonMiddleNameMatch parameters (named "Jane Smith" line)
              (titled (VStr "John Smith")) = Ok false
          ∧ byNonMiddleNameMatch parameters (named "John Smith" line)
              (titled (VStr "John Smyth")) = Ok false)).
Proof.
  split; [reflexivity|].
  do 4 (split; [vm_compute; reflexivity|]).
  split; [|split; [|split; [|split]]].
  - intros parameters line Hfield Hon.
    unfold byPreciseMatch. rewrite Hon, Hfield, !column_named.
    split; vm_compute; reflexivity.
  - intros parameters line Hfield Hon.
    unfold byNonMiddleNameMatch. rewrite Hon, Hfield, !column_named.
    split; vm_compute; reflexivity.
  - intros parameters entry individual Hoff.
    unfold byPreciseMatch. rewrite Hoff. reflexivity.
  - intros parameters entry individual Hoff.
    unfold byNonMiddleNameMatch. rewrite Hoff. reflexivity.
  - split; [|split; [|split; [|split; [|split; [|split]]]]].
    + intros s. unfold normalised. by rewrite toLowerCase_idempotent.
    + intros s1 s2 c Hc. unfold normalised.
      rewrite !toLowerCase_app, !strip_other_app.
      cbn [Str.toLowerCase Str.strip_other]. rewrite Hc. reflexivity.
    + intros s Hclean Hplain. unfold normalised, Str.strip_honorific.
      rewrite (clean_unchanged s Hclean).
      destruct (Str.match_honorific Str.honorifics s) as [rest|] eqn:Hmatch;
        [|done].
      exfalso.
      apply match_honorific_inv in Hmatch as (h & Hin & [Hs|Hs]).
      * by apply (Hplain h rest).
      * rewrite Hs in Hclean. rewrite !all_chars_app in Hclean.
        apply andb_true_iff in Hclean as [_ Hclean].
        apply andb_true_iff in Hclean as [Hclean _]. done.
    + intros name h rest Hin Hstripped. unfold normalised, Str.strip_honorific.
      rewrite Hstripped, (match_honorific_space h rest Hin). reflexivity.
    + intros parameters entry individual candidate own Hon Htitle Hown.
      exists (Str.strip_honorific (Str.strip_other (Str.toLowerCase candidate))),
        (Str.strip_honorific (Str.strip_other (Str.toLowerCase own))).
      split; [reflexivity|]. split; [reflexivity|].
      unfold byPreciseMatch. rewrite Hon, Htitle, Hown.
      cbn [negb normalised rbind]. f_equal.
      unfold strict_eq. apply bool_decide_ext.
      split; [by intros [= ->] | by intros ->].
    + intros parameters entry individual candidate own Hon Htitle Hown.
      exists (Str.strip_honorific (Str.strip_other (Str.toLowerCase candidate))),
        (Str.strip_honorific (Str.strip_other (Str.toLowerCase own))).
      split; [reflexivity|]. split; [reflexivity|].
      unfold byNonMiddleNameMatch. rewrite Hon, Htitle, Hown.
      cbn [negb normalised rbind tokens].
      by rewrite !strict_eq_of_option.
    + intros parameters line Hfield. split.
      * intros Hon. unfold byPreciseMatch. rewrite Hon, Hfield, !column_named.
        split; vm_compute; reflexivity.
      * intros Hon. unfold byNonMiddleNameMatch.
        rewrite Hon, Hfield, !column_named.
        repeat split; vm_compute; reflexivity.
Qed.

Lemma name_filters_witness :
  byPreciseMatch strict_names (named "jane obrien" 1)
    (titled (VStr "Dr. Jane O'Brien")) = Ok true
  ∧ byNonMiddleNameMatch strict_names (named "Jane O'Brien" 1)
      (titled (VStr "Jane Marie O'Brien")) = Ok true
  ∧ byPreciseMatch one_key (named "a" 1) (titled (VStr "b")) = Ok true
  ∧ byNonMiddleNameMatch one_key (named "a" 1) (titled (VStr "b")) = Ok true
  ∧ byPreciseMatch strict_names (named "John Smith" 1)
      (titled (VStr "Jane Doe")) = Ok false
  ∧ byNonMiddleNameMatch strict_names (named "John Smith" 1)
      (titled (VStr "Jane Doe")) = Ok false
  ∧ normalised (VStr "Miss Ann Lee") = Ok (VStr "ann lee")
  ∧ normalised (VStr "drake") = Ok (VStr "drake").
Proof.
  destruct name_filters
    as (_ & _ & _ & _ & _ & Hprecise & Hnames & Hoff1 & Hoff2 & _ & _
        & Hplain & Hhonorific & _ & _ & Hreject).
  split; [|split; [|split; [|split; [|split; [|split; [|split]]]]]].
  - apply (Hprecise strict_names 1); reflexivity.
  - apply (Hnames strict_names 1); reflexivity.
  - apply (Hoff1 one_key); reflexivity.
  - apply (Hoff2 one_key); reflexivity.
  - apply (proj1 (Hreject strict_names 1 eq_refl)). reflexivity.
  - apply (proj2 (Hreject strict_names 1 eq_refl)). reflexivity.
  - apply (Hhonorific "Miss Ann Lee" "miss" "ann lee"); [|reflexivity].
    unfold Str.honorifics. rewrite !elem_of_cons. tauto.
  - apply (Hplain "drake"); [reflexivity|].
    unfold Str.honorifics. intros h rest. rewrite !elem_of_cons, elem_of_nil.
    intros [->|[->|[->|[->|[->|[->|[]]]]]]]; discriminate.
Defined.

(** ** The date-of-birth filter *)

(** C1, as stated, fails: with a birth-date column configured and filled in,
    a candidate without birth-date fields is rejected, not passed. *)
Lemma date_of_birth_missing_rejected :
  column (born "John Smith" "1980-05-01" 3) (dateOfBirthField with_birth_dates)
  = VStr "1980-05-01"
  ∧ dob_field year (titled (VStr "John Smith")) = VUndefined
  ∧ byDateOfBirth with_birth_dates (born "John Smith" "1980-05-01" 3)
      (titled (VStr "John Smith")) = false.
Proof. repeat split. Qed.

Lemma strict_eq_VStr (a b : string) :
  strict_eq (VStr a) (VStr b) = true ↔ a = b.
Proof.
  unfold strict_eq. rewrite bool_decide_eq_true.
  split; [by intros [= ->] | by intros ->].
Qed.

(** C1, amended.  When the configuration names a birth-date column and the
    Entry's value there is not blank: a candidate whose birth year or month
    is missing (or otherwise falsy) fails the filter; a candidate with both
    passes exactly when its year, as a string, equals the first four
    characters of the Entry's value and its month, as a string padded with a
    zero to two characters, equals the characters at positions 5 and 6 (the
    month of an ISO date).  When the configuration omits the column, or the
    Entry's value is absent or blank, every candidate passes. *)
Theorem date_of_birth_filter (parameters : Parameters) (entry : Entry.t)
    (individual : Individual) :
  (∀ value : string,
     truthy (dateOfBirthField parameters) = true →
     Entry.data entry !! to_string (dateOfBirthField parameters) = Some value →
     value ≠ "" →
     ((truthy (dob_field year individual) = false
       ∨ truthy (dob_field month individual) = false) →
      byDateOfBirth parameters entry individual = false)
     ∧ (truthy (dob_field year individual) = true →
        truthy (dob_field month individual) = true →
        (byDateOfBirth parameters entry individual = true
         ↔ to_string (dob_field year individual) = Str.slice 0 4 value
           ∧ Str.padStart2 (to_string (dob_field month individual))
             = Str.slice 5 7 value)))
  ∧ ((truthy (dateOfBirthField parameters) = false
      ∨ Entry.data entry !! to_string (dateOfBirthField parameters) = None
      ∨ Entry.data entry !! to_string (dateOfBirthField parameters) = Some "") →
     byDateOfBirth parameters entry individual = true).
Proof.
  split.
  - intros value Hfield Hvalue Hblank.
    assert (Hcol : column entry (dateOfBirthField parameters) = VStr value)
      by (unfold column; rewrite Hvalue; done).
    assert (Htruthy : truthy (VStr value) = true)
      by (cbn; rewrite bool_decide_eq_false_2 by done; done).
    unfold byDateOfBirth. rewrite Hfield, Hcol, Htruthy. cbn [negb orb to_string].
    split.
    + intros [-> | ->]; cbn; [done|].
      destruct (truthy (dob_field year individual)); done.
    + intros -> ->. cbn [negb orb].
      rewrite andb_true_iff, !strict_eq_VStr. done.
  - intros H. unfold byDateOfBirth, column.
    destruct H as [-> | [-> | ->]]; cbn; [done| |].
    + by rewrite orb_true_r.
    + by rewrite orb_true_r.
Qed.

Lemma date_of_birth_filter_witness :
  byDateOfBirth with_birth_dates (born "John Smith" "1980-05-01" 3)
    (titled (VStr "John Smith")) = false
  ∧ byDateOfBirth with_birth_dates (born "John Smith" "1980-05-01" 3)
      (born_in 1980 5) = true
  ∧ byDateOfBirth with_birth_dates (named "John Smith" 3)
      (born_in 1980 5) = true.
Proof.
  split; [|split].
  - apply (proj1 (date_of_birth_filter with_birth_dates
                    (born "John Smith" "1980-05-01" 3)
                    (titled (VStr "John Smith"))) "1980-05-01");
      [reflexivity | reflexivity | discriminate | left; reflexivity].
  - apply (proj1 (date_of_birth_filter with_birth_dates
                    (born "John Smith" "1980-05-01" 3)
                    (born_in 1980 5)) "1980-05-01");
      [reflexivity | reflexivity | discriminate | reflexivity | reflexivity |].
    vm_compute. split; reflexivity.
  - apply (proj2 (date_of_birth_filter with_birth_dates
                    (named "John Smith" 3) (born_in 1980 5))).
    right. left. reflexivity.
Defined.

(** ** Output rows *)

Lemma filterR_Ok_subset {A} (f : A → Result bool) (xs ys : list A) (x : A) :
  filterR f xs = Ok ys → x ∈ ys → x ∈ xs.
Proof.
  revert ys. induction xs as [|a xs IH]; intros ys H Hin; cbn in H.
  - by simplify_eq.
  - destruct (f a) as [keep|]; cbn in H; [|done].
    destruct (filterR f xs) as [rest|]; cbn in H; [|done].
    simplify_eq. destruct keep.
    + apply elem_of_cons in Hin as [->|Hin]; [left | right; eauto].
    + right. eauto.
Qed.









(** ** Candidates without a display name *)

Lemma normalised_throws (name : Value) (e : Exn) :
  normalised name = Throw e → ∃ text, e = TypeError text.
Proof. destruct name; cbn; intros; simplify_eq; eauto. Qed.

Lemma normalised_column (entry : Entry.t) (field : Value) :
  (normalised (column entry field) = Ok VUndefined
   ∧ column entry field = VUndefined)
  ∨ ∃ name, column entry field = VStr name
            ∧ normalised (column entry field)
              = Ok (VStr (Str.strip_honorific
                            (Str.strip_other (Str.toLowerCase name)))).
Proof.
  unfold column. destruct (_ !! _) as [name|]; cbn; eauto.
Qed.

Lemma tokens_throws (name : Value) (e : Exn) :
  tokens name = Throw e → ∃ text, e = TypeError text.
Proof. destruct name; cbn; intros; simplify_eq; eauto. Qed.

Lemma byPreciseMatch_throws (parameters : Parameters) (entry : Entry.t)
    (individual : Individual) (e : Exn) :
  byPreciseMatch parameters entry individual = Throw e →
  ∃ text, e = TypeError text.
Proof.
  unfold byPreciseMatch. destruct (negb _); [done|].
  destruct (normalised (title individual)) eqn:H1; cbn.
  - destruct (normalised (column _ _)) eqn:H2; cbn; [done|].
    intros; simplify_eq. eauto using normalised_throws.
  - intros; simplify_eq. eauto using normalised_throws.
Qed.

Lemma byNonMiddleNameMatch_throws (parameters : Parameters) (entry : Entry.t)
    (individual : Individual) (e : Exn) :
  byNonMiddleNameMatch parameters entry individual = Throw e →
  ∃ text, e = TypeError text.
Proof.
  unfold byNonMiddleNameMatch. destruct (negb _); [done|].
  destruct (normalised (column _ _)) eqn:H1; cbn;
    [|intros; simplify_eq; eauto using normalised_throws].
  destruct (normalised (title individual)) eqn:H2; cbn;
    [|intros; simplify_eq; eauto using normalised_throws].
  destruct (tokens a0) eqn:H3; cbn;
    [|intros; simplify_eq; eauto using tokens_throws].
  destruct (tokens a) eqn:H4; cbn;
    [|intros; simplify_eq; eauto using tokens_throws].
  done.
Qed.

Lemma filterR_throws {A} (f : A → Result bool) (P : Exn → Prop) (xs : list A)
    (e : Exn) :
  (∀ x e', f x = Throw e' → P e') → filterR f xs = Throw e → P e.
Proof.
  intros Hf. induction xs as [|a xs IH]; cbn; [done|].
  destruct (f a) eqn:Ha; cbn.
  - destruct (filterR f xs); cbn; [done|]. intros; simplify_eq. by apply IH.
  - intros; simplify_eq. eauto.
Qed.

Lemma filterR_Ok_keeps {A} (f : A → Result bool) (xs ys : list A) (x : A) :
  filterR f xs = Ok ys → x ∈ xs → f x = Ok true → x ∈ ys.
Proof.
  revert ys. induction xs as [|a xs IH]; intros ys H Hin Hx; cbn in H.
  - by apply elem_of_nil in Hin.
  - destruct (f a) as [keep|] eqn:Ha; cbn in H; [|done].
    destruct (filterR f xs) as [rest|]; cbn in H; [|done].
    simplify_eq. apply elem_of_cons in Hin as [->|Hin].
    + rewrite Hx in Ha. simplify_eq. left.
    + destruct keep; [right|]; eauto.
Qed.

Lemma filterR_elem_throws {A} (f : A → Result bool) (xs : list A) (x : A)
    (e : Exn) :
  x ∈ xs → f x = Throw e → ∃ e', filterR f xs = Throw e'.
Proof.
  intros Hin Hx. induction xs as [|a xs IH]; [by apply elem_of_nil in Hin|].
  cbn. apply elem_of_cons in Hin as [<-|Hin].
  - rewrite Hx. cbn. eauto.
  - destruct (f a); cbn; [|eauto].
    destruct (IH Hin) as [e' ->]. cbn. eauto.
Qed.

(** C9, as stated, fails: with the first/last-name filter enabled, a
    candidate without display name that an earlier filter removes (here the
    exact-name filter) never reaches [split], and [parse] returns normally. *)
Lemma missing_title_filtered_earlier :
  truthy (nonMiddleNameMatch strict_names) = true
  ∧ title (titled VUndefined) = VUndefined
  ∧ parse strict_names (Some (page_of [titled VUndefined]))
      (named "John Smith" 3) = Ok (Some []).
Proof. repeat split. Qed.

(** C9, amended.  With the first/last-name filter enabled, that filter
    throws a TypeError on a candidate whose display name is absent, and
    [parse] throws a TypeError whenever the Response contains such a
    candidate that passes the date-of-birth and exact-name filters (as it
    does when they are not enabled).  The exact-name filter, when enabled,
    silently rejects such a candidate if the Entry has a name.  So [parse]
    is not total over all candidate shapes. *)
Theorem missing_title (parameters : Parameters) (response : Response.t)
    (entry : Entry.t) (individual : Individual) :
  title individual = VUndefined →
  (truthy (nonMiddleNameMatch parameters) = true →
   (∃ text, byNonMiddleNameMatch parameters entry individual
            = Throw (TypeError text))
   ∧ (individual ∈ items (Response.data response) →
      byDateOfBirth parameters entry individual = true →
      byPreciseMatch parameters entry individual = Ok true →
      ∃ text, parse parameters (Some response) entry = Throw (TypeError text)))
  ∧ (truthy (preciseMatch parameters) = true →
     ∀ name, Entry.data entry !! to_string (individualNameField parameters)
             = Some name →
     byPreciseMatch parameters entry individual = Ok false).
Proof.
  intros Htitle.
  assert (Hthrow : truthy (nonMiddleNameMatch parameters) = true →
    ∃ text, byNonMiddleNameMatch parameters entry individual
            = Throw (TypeError text)).
  { intros Hon. unfold byNonMiddleNameMatch. rewrite Hon, Htitle. cbn.
    destruct (normalised_column entry (individualNameField parameters))
      as [[-> _]|(name & _ & ->)]; cbn; eauto. }
  split.
  - intros Hon. split; [by apply Hthrow|].
    intros Hin Hdob Hprecise. unfold parse.
    destruct (filterR (λ i, Ok (byDateOfBirth parameters entry i)) _)
      as [l1|e1] eqn:H1; cbn.
    2:{ exfalso. revert H1. apply (filterR_throws _ (λ _, False)). done. }
    assert (Hin1 : individual ∈ l1).
    { eapply filterR_Ok_keeps; [exact H1 | done | cbn; by rewrite Hdob]. }
    destruct (filterR (byPreciseMatch parameters entry) l1) as [l2|e2] eqn:H2;
      cbn.
    2:{ revert H2. apply (filterR_throws _ (λ e, ∃ text, Throw e = Throw (TypeError text))).
        intros x e' Hx. apply byPreciseMatch_throws in Hx as [text ->]. eauto. }
    assert (Hin2 : individual ∈ l2) by (eapply filterR_Ok_keeps; eauto).
    destruct (Hthrow Hon) as [text Htext].
    destruct (filterR_elem_throws _ _ _ _ Hin2 Htext) as [e3 H3].
    rewrite H3. cbn.
    revert H3. apply (filterR_throws _ (λ e, ∃ text, Throw e = Throw (TypeError text))).
    intros x e' Hx. apply byNonMiddleNameMatch_throws in Hx as [text' ->]. eauto.
  - intros Hon name Hname. unfold byPreciseMatch, column.
    rewrite Hon, Htitle, Hname. reflexivity.
Qed.

Lemma missing_title_witness :
  (∃ text, parse {| apiKey := Scalar (VStr "K");
                    individualNameField := VStr "individualName";
                    dateOfBirthField := VUndefined;
                    nonMiddleNameMatch := VBool true;
                    preciseMatch := VUndefined |}
             (Some (page_of [titled VUndefined])) (named "John Smith" 3)
           = Throw (TypeError text))
  ∧ byPreciseMatch strict_names (named "John Smith" 3) (titled VUndefined)
    = Ok false.
Proof.
  split.
  - apply (missing_title _ (page_of [titled VUndefined]) (named "John Smith" 3)
             (titled VUndefined));
      [reflexivity | reflexivity | left | reflexivity | reflexivity].
  - apply (proj2 (missing_title strict_names (page_of [titled VUndefined])
                    (named "John Smith" 3) (titled VUndefined) eq_refl)
             eq_refl "John Smith").
    reflexivity.
Defined.

(** ** The pipeline *)

Lemma request_ok (parameters : Parameters) (http : Query.t → Reply.t)
    (callImportance : string) (query : Query.t) (s : State) :
  Reply.status (http query) < 400 →
  request parameters http callImportance (Some query) s
  = (Fulfilled (Some (response_of query (http query))), s).
Proof.
  intros Hstatus.
  unfold request, requestor, abind, settle, resolve, messages.
  cbn [RequestorConfig.messages config response].
  repeat match goal with
         | |- context [?a =? ?b] => destruct (Z.eqb_spec a b); try lia
         | |- context [?a >=? ?b] =>
             let E := fresh in destruct (a >=? b) eqn:E; try lia
         end.
  reflexivity.
Qed.

(** C4. For an Entry whose configured individual-name column is absent or
    blank (the empty string, which is what [!individualName] tests), [run]
    resolves with no rows ([undefined]) and hands [alert]
    exactly one diagnostic, of importance 'error', whose message ends in the
    Entry's line number; no credential is drawn. *)
Theorem run_missing_name (parameters : Parameters) (http : Query.t → Reply.t)
    (callImportance : string) (completion : list nat) (entry : Entry.t)
    (s : State) :
  Entry.data entry !! to_string (individualNameField parameters) = None
  ∨ Entry.data entry !! to_string (individualNameField parameters) = Some "" →
  let diagnostic :=
    {| message := "No individual name found on line "
                  +:+ pretty (Entry.line entry);
       importance := "error" |} in
  run parameters http callImportance completion entry s
  = (Fulfilled None, alert diagnostic s)
  ∧ alerts (snd (run parameters http callImportance completion entry s))
    = app (alerts s) [diagnostic]
  ∧ next (snd (run parameters http callImportance completion entry s))
    = next s.
Proof.
  intros Hname diagnostic.
  assert (Hrun : run parameters http callImportance completion entry s
                 = (Fulfilled None, alert diagnostic s)).
  { unfold run, locate, column.
    destruct Hname as [-> | ->]; reflexivity. }
  rewrite Hrun. done.
Qed.

Lemma run_missing_name_witness :
  run one_key (answering 200 no_results) "warning" []
    {| Entry.data := {[ "individualName" := "" ]}; Entry.line := 7 |} initial
  = (Fulfilled None,
     {| next := Idx 0;
        alerts := [ {| message := "No individual name found on line 7";
                       importance := "error" |} ] |}).
Proof.
  apply (run_missing_name one_key (answering 200 no_results) "warning" []
           {| Entry.data := {[ "individualName" := "" ]}; Entry.line := 7 |}
           initial).
  right. reflexivity.
Defined.

(** C8. For the Entry with the one column individualName = "John Smith", on
    line 3, and a service that answers with the body of one result (John
    Smith, link /officers/abc123, born 1980-5, address "1 Road"), [run]
    resolves with exactly one OutputRow: officerID "abc123", officerName
    "John Smith", officerDateOfBirth "1980-5", officerAddress "1 Road".
    This holds for every configuration that names individualName as the name
    column and does not take the birth date from that same column, whatever
    the keys and the name-matching toggles, and no diagnostic is emitted. *)
Theorem run_john_smith (parameters : Parameters) (http : Query.t → Reply.t)
    (callImportance : string) (completion : list nat) (s : State) :
  individualNameField parameters = VStr "individualName" →
  to_string (dateOfBirthField parameters) ≠ "individualName" →
  (∀ query, Reply.status (http query) < 400
            ∧ Reply.data (http query) = john_smith_body) →
  fst (run parameters http callImportance completion (named "John Smith" 3) s)
  = Fulfilled (Some [Some [("officerID", VStr "abc123");
                           ("officerName", VStr "John Smith");
                           ("officerDateOfBirth", VStr "1980-5");
                           ("officerAddress", VStr "1 Road")]])
  ∧ alerts (snd (run parameters http callImportance completion
                   (named "John Smith" 3) s))
    = alerts s.
Proof.
  intros Hfield Hdob Hhttp.
  assert (Hbirth : byDateOfBirth parameters (named "John Smith" 3) john_smith
                   = true).
  { unfold byDateOfBirth, column, named. cbn [Entry.data].
    rewrite lookup_singleton_ne by done. cbn. by rewrite orb_true_r. }
  assert (Hprecise : byPreciseMatch parameters (named "John Smith" 3) john_smith
                     = Ok true).
  { unfold byPreciseMatch. rewrite Hfield, column_named.
    destruct (negb _); [done|]. vm_compute. reflexivity. }
  assert (Hnames : byNonMiddleNameMatch parameters (named "John Smith" 3)
                     john_smith = Ok true).
  { unfold byNonMiddleNameMatch. rewrite Hfield, column_named.
    destruct (negb _); [done|]. vm_compute. reflexivity. }
  destruct (apiKeysRotated parameters s) as [key s'] eqn:Hkey.
  assert (Hlog : alerts s' = alerts s).
  { unfold apiKeysRotated in Hkey. by simplify_eq. }
  assert (Hrun :
    run parameters http callImportance completion (named "John Smith" 3) s
    = (Fulfilled (Some [Some [("officerID", VStr "abc123");
                              ("officerName", VStr "John Smith");
                              ("officerDateOfBirth", VStr "1980-5");
                              ("officerAddress", VStr "1 Road")]]), s')).
  { unfold run, locate. rewrite Hfield, column_named.
    cbn [truthy negb]. rewrite bool_decide_eq_false_2 by done. cbn [negb].
    rewrite Hkey. unfold abind at 1.
    match goal with
    | |- context [request _ _ _ (Some ?query) _] =>
        rewrite (request_ok parameters http callImportance query s'
                   (proj1 (Hhttp query)));
        set (located := query)
    end.
    unfold abind at 1. unfold paginate, response_of. cbn [Response.data].
    rewrite (proj2 (Hhttp located)). cbn [total_results john_smith_body].
    change (1 >? 100) with false. cbn iota. unfold resolve at 2.
    unfold abind, settle, resolve.
    cbn [flatMap_parse parse Response.data].
    change (items john_smith_body) with [john_smith].
    cbn [filterR rbind]. rewrite Hbirth. cbn [filterR rbind]. rewrite Hprecise.
    cbn [filterR rbind]. rewrite Hnames.
    reflexivity. }
  rewrite Hrun. done.
Qed.

Lemma run_john_smith_witness :
  fst (run one_key (answering 200 john_smith_body) "warning" []
         (named "John Smith" 3) initial)
  = Fulfilled (Some [Some [("officerID", VStr "abc123");
                           ("officerName", VStr "John Smith");
                           ("officerDateOfBirth", VStr "1980-5");
                           ("officerAddress", VStr "1 Road")]]).
Proof.
  apply (run_john_smith one_key (answering 200 john_smith_body) "warning" []
           initial).
  - reflexivity.
  - discriminate.
  - intros query. split; [cbn; lia | reflexivity].
Defined.

(** ** Pagination *)

Lemma Promise_all_nonempty {A} (promises : list (Async A))
    (completion : list nat) :
  promises ≠ [] →
  Promise_all promises completion
  = settle_in_order promises completion (replicate (length promises) None).
Proof. destruct promises; done. Qed.

Section PromiseAllFacts.
Context {A : Type}.
Variable promises : list (Async A).
Variable outcomes : list (Result A).
Hypothesis settles :
  Forall2 (λ p o, ∀ s, fst (p s) = settlement_of o) promises outcomes.

Lemma filled_all (xs : list A) : filled (Some <$> xs) = Some xs.
Proof.
  unfold filled. apply mapM_Some_2.
  induction xs; constructor; done.
Qed.

Lemma filled_hole (values : list (option A)) (i : nat) :
  values !! i = Some None → filled values = None.
Proof.
  intros H. unfold filled. apply mapM_None_2, Exists_exists.
  exists None. split; [|done]. apply list_elem_of_lookup. eauto.
Qed.

Lemma settle_in_order_fulfilled (xs : list A) (completion : list nat) :
  outcomes = Ok <$> xs →
  ∀ (values : list (option A)) (s : State),
    NoDup completion → completion ≠ [] →
    length values = length xs →
    (∀ i, i ∈ completion → values !! i = Some None) →
    (∀ i, (i < length xs)%nat → i ∉ completion →
          values !! i = Some <$> xs !! i) →
    fst (settle_in_order promises completion values s) = Fulfilled xs.
Proof.
  intros Hxs.
  induction completion as [|i rest IH]; intros values s Hnodup Hne Hlen Hin Hout;
    [done|].
  apply NoDup_cons in Hnodup as [Hi Hnodup].
  assert (Hvi : values !! i = Some None) by (apply Hin; left).
  assert (Hlt : (i < length xs)%nat)
    by (rewrite <- Hlen; eapply lookup_lt_Some; eauto).
  destruct (lookup_lt_is_Some_2 xs i Hlt) as [x Hx].
  assert (Ho : outcomes !! i = Some (Ok x))
    by (rewrite Hxs, list_lookup_fmap, Hx; done).
  destruct (Forall2_lookup_r _ _ _ _ _ settles Ho) as (p & Hp & Hsettle).
  cbn [settle_in_order]. unfold Async in *. rewrite Hp, Hvi.
  specialize (Hsettle s). destruct (p s) as [o s']. cbn in Hsettle. subst o.
  assert (Hvalues' : ∀ j, (j < length xs)%nat → j ∉ rest →
                          <[i := Some x]> values !! j = Some <$> xs !! j).
  { intros j Hj Hjrest. destruct (decide (j = i)) as [->|Hji].
    - rewrite list_lookup_insert_eq by lia. by rewrite Hx.
    - rewrite list_lookup_insert_ne by done. apply Hout; [done|].
      rewrite not_elem_of_cons. done. }
  destruct rest as [|j rest'].
  - assert (Hall : <[i := Some x]> values = Some <$> xs).
    { apply list_eq. intros j. rewrite list_lookup_fmap.
      destruct (decide (j < length xs)%nat) as [Hj|Hj].
      - apply Hvalues'; [done | apply not_elem_of_nil].
      - rewrite !lookup_ge_None_2; [done | lia |].
        rewrite length_insert. lia. }
    rewrite Hall, filled_all. reflexivity.
  - assert (Hji : j ≠ i).
    { intros ->. apply Hi. left. }
    rewrite (filled_hole _ j).
    2:{ rewrite list_lookup_insert_ne by done. apply Hin. right. left. }
    apply IH; [done | done | by rewrite length_insert | | done].
    intros k Hk. rewrite list_lookup_insert_ne.
    + apply Hin. by right.
    + intros ->. done.
Qed.

Lemma settle_in_order_rejected (completion : list nat) :
  ∀ (values : list (option A)) (s : State),
    NoDup completion →
    length values = length outcomes →
    (∀ i, i ∈ completion → values !! i = Some None) →
    (∃ i e, i ∈ completion ∧ outcomes !! i = Some (Throw e)) →
    ∃ i e, outcomes !! i = Some (Throw e)
           ∧ fst (settle_in_order promises completion values s) = Rejected e.
Proof.
  induction completion as [|i rest IH]; intros values s Hnodup Hlen Hin Hbad.
  { destruct Hbad as (i & e & Hi & _). by apply elem_of_nil in Hi. }
  apply NoDup_cons in Hnodup as [Hi Hnodup].
  assert (Hvi : values !! i = Some None) by (apply Hin; left).
  assert (Hlt : (i < length outcomes)%nat)
    by (rewrite <- Hlen; eapply lookup_lt_Some; eauto).
  destruct (lookup_lt_is_Some_2 outcomes i Hlt) as [o Ho].
  destruct (Forall2_lookup_r _ _ _ _ _ settles Ho) as (p & Hp & Hsettle).
  cbn [settle_in_order]. unfold Async in *. rewrite Hp, Hvi.
  specialize (Hsettle s). destruct (p s) as [o' s']. cbn in Hsettle. subst o'.
  destruct o as [x|e]; cbn [settlement_of]; [|eauto].
  destruct Hbad as (j & e & Hj & Hje).
  apply elem_of_cons in Hj as [->|Hj]; [congruence|].
  assert (Hji : j ≠ i) by (intros ->; done).
  rewrite (filled_hole _ j).
  2:{ rewrite list_lookup_insert_ne by done. apply Hin. by right. }
  apply IH; [done | by rewrite length_insert | | eauto].
  intros k Hk. rewrite list_lookup_insert_ne.
  - apply Hin. by right.
  - intros ->. done.
Qed.

Lemma Promise_all_fulfilled (xs : list A) (completion : list nat) (s : State) :
  outcomes = Ok <$> xs →
  completion ≡ₚ seq 0 (length promises) →
  fst (Promise_all promises completion s) = Fulfilled xs.
Proof.
  intros Hxs Hperm.
  assert (Hlen : length promises = length xs).
  { pose proof (Forall2_length _ _ _ settles) as H.
    rewrite Hxs, length_fmap in H. exact H. }
  destruct (decide (promises = [])) as [Hnil|Hsome].
  { rewrite Hnil in *. destruct xs; [done | discriminate]. }
  rewrite Promise_all_nonempty by done.
  assert (Hpos : (0 < length promises)%nat)
    by (destruct promises; [done | cbn; lia]).
  apply settle_in_order_fulfilled; [done | | | | |].
  - rewrite Hperm. apply NoDup_seq.
  - intros ->. apply Permutation_nil_l in Hperm.
    destruct (length promises); [lia | done].
  - rewrite length_replicate. done.
  - intros i Hi. rewrite Hperm in Hi. apply elem_of_seq in Hi.
    apply lookup_replicate_2. lia.
  - intros i Hi Hout. exfalso. apply Hout. rewrite Hperm.
    apply elem_of_seq. lia.
Qed.

Lemma Promise_all_rejected (completion : list nat) (s : State) :
  completion ≡ₚ seq 0 (length promises) →
  (∃ i e, outcomes !! i = Some (Throw e)) →
  ∃ i e, outcomes !! i = Some (Throw e)
         ∧ fst (Promise_all promises completion s) = Rejected e.
Proof.
  intros Hperm (i & e & Hie).
  assert (Hlen : length promises = length outcomes)
    by exact (Forall2_length _ _ _ settles).
  assert (Hi : (i < length promises)%nat)
    by (rewrite Hlen; eapply lookup_lt_Some; eauto).
  assert (Hsome : promises ≠ []) by (intros Hnil; rewrite Hnil in Hi; cbn in Hi; lia).
  rewrite Promise_all_nonempty by done.
  apply settle_in_order_rejected.
  - rewrite Hperm. apply NoDup_seq.
  - rewrite length_replicate. done.
  - intros k Hk. rewrite Hperm in Hk. apply elem_of_seq in Hk.
    apply lookup_replicate_2. lia.
  - exists i, e. split; [|done]. rewrite Hperm. apply elem_of_seq. lia.
Qed.
End PromiseAllFacts.

Lemma request_settles (parameters : Parameters) (http : Query.t → Reply.t)
    (callImportance : string) (query : Query.t) (s : State) :
  fst (request parameters http callImportance (Some query) s)
  = settlement_of (outcome http query).
Proof.
  unfold request, requestor, outcome, abind, settle, resolve.
  cbn [RequestorConfig.messages].
  destruct (messages _) as [[text|]|e]; reflexivity.
Qed.

Lemma outcome_answer (http : Query.t → Reply.t) (query : Query.t) :
  ¬ fatal http query → outcome http query = Ok (answer http query).
Proof.
  unfold fatal, outcome, answer, messages. cbn [config response]. intros H.
  destruct (Z.eqb_spec (Reply.status (http query)) 429); [tauto|].
  destruct (Z.eqb_spec (Reply.status (http query)) 401); [tauto|].
  destruct (_ >=? _); reflexivity.
Qed.

Lemma outcome_fatal (http : Query.t → Reply.t) (query : Query.t) :
  fatal http query → ∃ e, outcome http query = Throw e.
Proof.
  unfold fatal, outcome, messages. cbn [config response]. intros H.
  destruct (Z.eqb_spec (Reply.status (http query)) 429); [cbn; eauto|].
  destruct (Z.eqb_spec (Reply.status (http query)) 401); [cbn; eauto|].
  tauto.
Qed.

Lemma pageNumbers_range (pageTotal : Z) :
  0 ≤ pageTotal ≤ 2 ^ 32 - 1 →
  pageNumbers pageTotal = Ok (seqZ 1 (Z.min pageTotal 10 - 1)).
Proof.
  intros Hrange. unfold pageNumbers, Array_keys.
  destruct (Z.ltb_spec pageTotal 0); [lia|].
  destruct (Z.ltb_spec (2 ^ 32 - 1) pageTotal); [lia|].
  cbn [orb rbind]. f_equal.
  unfold slice. apply list_eq. intros i.
  destruct (decide (i < 9)%nat) as [Hi|Hi].
  - rewrite lookup_take_lt, lookup_drop by done.
    destruct (decide (Z.of_nat (1 + i) < pageTotal)) as [Hlt|Hge].
    + rewrite !lookup_seqZ_lt by lia. f_equal. lia.
    + rewrite !lookup_seqZ_ge by lia. done.
  - rewrite lookup_take_ge by lia. rewrite lookup_seqZ_ge by lia. done.
Qed.

Lemma pageNumbers_overflow (pageTotal : Z) :
  2 ^ 32 - 1 < pageTotal →
  pageNumbers pageTotal = Throw (RangeError "Invalid array length").
Proof.
  intros Hbig. unfold pageNumbers, Array_keys.
  destruct (Z.ltb_spec (2 ^ 32 - 1) pageTotal); [|lia].
  by rewrite orb_true_r.
Qed.

Lemma pageNumbers_Ok (pageTotal : Z) (pages : list Z) :
  pageNumbers pageTotal = Ok pages →
  0 ≤ pageTotal ≤ 2 ^ 32 - 1 ∧ pages = seqZ 1 (Z.min pageTotal 10 - 1).
Proof.
  intros Hpages.
  destruct (decide (0 ≤ pageTotal ≤ 2 ^ 32 - 1)) as [Hrange|Hout].
  - rewrite pageNumbers_range in Hpages by done. by simplify_eq.
  - exfalso. revert Hpages. unfold pageNumbers, Array_keys.
    destruct (Z.ltb_spec pageTotal 0); [done|].
    destruct (Z.ltb_spec (2 ^ 32 - 1) pageTotal); [done | lia].
Qed.

Lemma pageQueries_pages (parameters : Parameters) (response : Response.t)
    (pages : list Z) (s : State) :
  map (λ query, page (Query.passthrough query))
      (fst (pageQueries parameters response pages s))
  = Z.add 1 <$> pages.
Proof.
  revert s. induction pages as [|p pages IH]; intros s; [done|].
  cbn [pageQueries].
  destruct (apiKeysRotated parameters s) as [key s1].
  specialize (IH s1).
  destruct (pageQueries parameters response pages s1) as [queries s2].
  cbn in *. rewrite IH. f_equal. lia.
Qed.

Lemma pageQueries_built (parameters : Parameters) (response : Response.t)
    (pages : list Z) (s : State) :
  Forall2 (λ p query, ∃ key, query = pageQuery response key p)
    pages (fst (pageQueries parameters response pages s)).
Proof.
  revert s. induction pages as [|p pages IH]; intros s; [constructor|].
  cbn [pageQueries].
  destruct (apiKeysRotated parameters s) as [key s1].
  specialize (IH s1).
  destruct (pageQueries parameters response pages s1) as [queries s2].
  cbn in *. constructor; eauto.
Qed.

Lemma ceil_div_100_bounds (t : Z) :
  100 * (ceil_div_100 t - 1) < t ≤ 100 * ceil_div_100 t.
Proof.
  unfold ceil_div_100.
  pose proof (Z.div_mod (- t) 100 ltac:(lia)).
  pose proof (Z.mod_pos_bound (- t) 100 ltac:(lia)).
  lia.
Qed.

Lemma paginate_unfold (parameters : Parameters) (http : Query.t → Reply.t)
    (callImportance : string) (completion : list nat) (response : Response.t)
    (s : State) (pages : list Z) :
  100 < total_results (Response.data response) →
  pageNumbers (ceil_div_100 (total_results (Response.data response)))
  = Ok pages →
  paginate parameters http callImportance completion (Some response) s
  = (await pageResponses :=
       Promise_all
         (map (λ query, request parameters http callImportance (Some query))
            (fst (pageQueries parameters response pages s)))
         completion in
     resolve (Some (Some response :: pageResponses)))
      (snd (pageQueries parameters response pages s)).
Proof.
  intros Hgt Hpages. unfold paginate.
  destruct (Z.gtb_spec (total_results (Response.data response)) 100); [|lia].
  rewrite Hpages.
  destruct (pageQueries parameters response pages s); reflexivity.
Qed.

Lemma paginate_overflow (parameters : Parameters) (http : Query.t → Reply.t)
    (callImportance : string) (completion : list nat) (response : Response.t)
    (s : State) :
  100 < total_results (Response.data response) →
  2 ^ 32 - 1 < ceil_div_100 (total_results (Response.data response)) →
  paginate parameters http callImportance completion (Some response) s
  = (Rejected (RangeError "Invalid array length"), s).
Proof.
  intros Hgt Hbig. unfold paginate.
  destruct (Z.gtb_spec (total_results (Response.data response)) 100); [|lia].
  rewrite pageNumbers_overflow by done. reflexivity.
Qed.

(** C2, as stated, fails for two kinds of first Response.  With T = 250 and
    a service that answers the follow-up calls with status 429, [paginate]
    does not return a sequence: it rejects with the rate-limit error.  With
    T = 429496729600 the page total is 2^32, [Array(pageTotal)] throws a
    RangeError, and [paginate] rejects without any follow-up call. *)
Lemma paginate_not_always_a_sequence :
  fst (paginate three_keys (answering 429 no_results) "warning" [1; 0]%nat
         (Some (first_page 250)) initial)
  = Rejected (Error "The rate limit has been reached")
  ∧ paginate three_keys (answering 200 no_results) "warning" [1; 0]%nat
      (Some (first_page 429496729600)) initial
    = (Rejected (RangeError "Invalid array length"), initial).
Proof. split; reflexivity. Qed.

(** C2, amended.  [paginate(undefined)] is [undefined].  For a first
    Response with [total_results] T, page size 100: when T <= 100 the result
    is the one-element sequence of that Response and no call is made.  When
    T > 100 and ceil(T / 100) <= 2^32 - 1, the follow-up calls are exactly
    those for the pages 2 to min(ceil(T / 100), 10), in ascending order
    (pages 2, 3 for T = 250; pages 2 to 10, nine calls, for T = 950); the
    call for page p asks for 100 items from start index 100 (p - 1), at the
    url and for the trimmed name of the first Response.  Whatever the order
    in which these calls complete: if none is fatal, the result is the first
    Response followed by the answers of the calls in page order (a call
    answered with a non-fatal status from 400 up leaves [undefined] at its
    page's place); if one is fatal (429 or 401), the result is rejected with
    the error of such a call.  When ceil(T / 100) > 2^32 - 1 the result is
    rejected with a RangeError and no call is made. *)
Theorem paginate_pages (parameters : Parameters) (http : Query.t → Reply.t)
    (callImportance : string) (completion : list nat) (response : Response.t)
    (s : State) :
  let total := total_results (Response.data response) in
  let last := Z.min (ceil_div_100 total) 10 in
  paginate parameters http callImportance completion None s
  = (Fulfilled None, s)
  ∧ 100 * (ceil_div_100 total - 1) < total ≤ 100 * ceil_div_100 total
  ∧ (total ≤ 100 →
     paginate parameters http callImportance completion (Some response) s
     = (Fulfilled (Some [Some response]), s))
  ∧ (100 < total → 2 ^ 32 - 1 < ceil_div_100 total →
     paginate parameters http callImportance completion (Some response) s
     = (Rejected (RangeError "Invalid array length"), s))
  ∧ (100 < total → ceil_div_100 total ≤ 2 ^ 32 - 1 →
     ∃ pages,
       pageNumbers (ceil_div_100 total) = Ok pages
       ∧ let queries := fst (pageQueries parameters response pages s) in
         Forall2 (λ p query,
                    page (Query.passthrough query) = p
                    ∧ start_index (Query.params query) = Some (100 * (p - 1))
                    ∧ items_per_page (Query.params query) = 100
                    ∧ q (Query.params query)
                      = Str.trim (individualName (Response.passthrough response))
                    ∧ individualName (Query.passthrough query)
                      = individualName (Response.passthrough response)
                    ∧ Query.url query = Response.url response)
           (seqZ 2 (last - 1)) queries
         ∧ (total = 250 →
            map (λ query, page (Query.passthrough query)) queries = [2; 3])
         ∧ (total = 950 →
            map (λ query, page (Query.passthrough query)) queries
            = [2; 3; 4; 5; 6; 7; 8; 9; 10])
         ∧ (completion ≡ₚ seq 0 (length queries) →
            ((∀ query, query ∈ queries → ¬ fatal http query) →
             fst (paginate parameters http callImportance completion
                    (Some response) s)
             = Fulfilled (Some (Some response :: map (answer http) queries)))
            ∧ ((∃ query, query ∈ queries ∧ fatal http query) →
               ∃ query e,
                 query ∈ queries ∧ outcome http query = Throw e
                 ∧ fst (paginate parameters http callImportance completion
                          (Some response) s)
                   = Rejected e))).
Proof.
  intros total last.
  split; [reflexivity|]. split; [apply ceil_div_100_bounds|]. split.
  { intros Hle. unfold paginate. fold total.
    destruct (Z.gtb_spec total 100); [lia | reflexivity]. }
  split; [intros Hgt Hbig; by apply paginate_overflow|].
  intros Hgt Hbound.
  pose proof (ceil_div_100_bounds total) as Hceil.
  assert (Hpages : pageNumbers (ceil_div_100 total) = Ok (seqZ 1 (last - 1)))
    by (apply pageNumbers_range; lia).
  exists (seqZ 1 (last - 1)). split; [exact Hpages|].
  set (queries := fst (pageQueries parameters response (seqZ 1 (last - 1)) s)).
  cbv zeta.
  assert (Hlabels : map (λ query, page (Query.passthrough query)) queries
                    = seqZ 2 (last - 1)).
  { unfold queries. rewrite pageQueries_pages, fmap_add_seqZ. done. }
  split.
  { pose proof (pageQueries_built parameters response (seqZ 1 (last - 1)) s)
      as Hbuilt. fold queries in Hbuilt.
    rewrite <- (fmap_add_seqZ 1 1). apply Forall2_fmap_l.
    eapply Forall2_impl; [exact Hbuilt|].
    intros p query [key ->]. cbn.
    repeat split; try done; first [lia | f_equal; lia]. }
  split; [intros H; rewrite Hlabels; unfold last; fold total; rewrite H;
          reflexivity|].
  split; [intros H; rewrite Hlabels; unfold last; fold total; rewrite H;
          reflexivity|].
  intros Hperm.
  assert (Hsettles :
    Forall2 (λ p o, ∀ s0 : State, fst (p s0) = settlement_of o)
      (map (λ query, request parameters http callImportance (Some query)) queries)
      (map (outcome http) queries)).
  { apply Forall2_fmap, Forall_Forall2_diag, Forall_forall.
    intros query _ s0. apply request_settles. }
  rewrite (paginate_unfold parameters http callImportance completion response s
             (seqZ 1 (last - 1)) Hgt Hpages).
  fold queries. unfold abind.
  rewrite <- (length_fmap
                (λ query, request parameters http callImportance (Some query)))
    in Hperm.
  split.
  - intros Hfine.
    assert (Houtcomes : map (outcome http) queries
                        = Ok <$> map (answer http) queries).
    { rewrite <- list_fmap_compose. apply list_fmap_ext.
      intros i query Hq. cbn. apply outcome_answer, Hfine.
      apply list_elem_of_lookup. eauto. }
    pose proof (Promise_all_fulfilled _ _ Hsettles _ completion
                  (snd (pageQueries parameters response (seqZ 1 (last - 1)) s))
                  Houtcomes Hperm) as Hall.
    destruct (Promise_all _ _ _) as [o s']. cbn in Hall. subst o. reflexivity.
  - intros (query & Hin & Hfatal).
    apply list_elem_of_lookup in Hin as [i Hi].
    destruct (outcome_fatal _ _ Hfatal) as [e He].
    destruct (Promise_all_rejected _ _ Hsettles completion
                (snd (pageQueries parameters response (seqZ 1 (last - 1)) s))
                Hperm)
      as (j & e' & Hj & Hall).
    { exists i, e. rewrite list_lookup_fmap, Hi. cbn. by rewrite He. }
    apply list_lookup_fmap_Some in Hj as (query' & Hq' & He').
    exists query', e'. split; [apply list_elem_of_lookup; eauto|].
    split; [done|].
    destruct (Promise_all _ _ _) as [o s']. cbn in Hall. subst o. reflexivity.
Qed.

Lemma paginate_pages_witness :
  fst (paginate three_keys (answering 200 no_results) "warning" [1; 0]%nat
         (Some (first_page 250)) initial)
  = Fulfilled
      (Some (Some (first_page 250)
             :: map (answer (answering 200 no_results))
                  (fst (pageQueries three_keys (first_page 250) [1; 2]
                          initial)))).
Proof.
  destruct (paginate_pages three_keys (answering 200 no_results) "warning"
              [1; 0]%nat (first_page 250) initial) as (_ & _ & _ & _ & H).
  destruct H as (pages & Hpages & _ & _ & _ & H);
    [vm_compute; reflexivity | vm_compute; discriminate |].
  vm_compute in Hpages. injection Hpages as <-.
  apply H.
  - apply perm_swap.
  - intros query _ [Hfatal | Hfatal]; cbn in Hfatal; lia.
Defined.

(** The same run, spelled out: the pages arrive as 3 then 2 and are returned
    as 1, 2, 3, with keys drawn in page order. *)
Example paginate_250_reordered :
  fst (paginate three_keys (answering 200 no_results) "warning" [1; 0]%nat
         (Some (first_page 250)) initial)
  = Fulfilled
      (Some [Some (first_page 250);
             Some {| Response.status := 200;
                     Response.data := no_results;
                     Response.url :=
                       "https://api.company-information.service.gov.uk/search/officers";
                     Response.auth := {| username := VStr "A"; password := "" |};
                     Response.passthrough :=
                       {| individualName := "John Smith"; page := 2 |} |};
             Some {| Response.status := 200;
                     Response.data := no_results;
                     Response.url :=
                       "https://api.company-information.service.gov.uk/search/officers";
                     Response.auth := {| username := VStr "B"; password := "" |};
                     Response.passthrough :=
                       {| individualName := "John Smith"; page := 3 |} |}]).
Proof. reflexivity. Qed.

(** A rate-limited follow-up call rejects the whole pagination. *)
Example paginate_250_rate_limited :
  fst (paginate three_keys (answering 429 no_results) "warning" [1; 0]%nat
         (Some (first_page 250)) initial)
  = Rejected (Error "The rate limit has been reached").
Proof. reflexivity. Qed.

(** * Further properties of the module *)

(** ** The rotator over a window of calls *)

Lemma calls_state (parameters : Parameters) (n i : nat) (log : list Diagnostic) :
  (i < length (apiKeys parameters))%nat →
  snd (calls parameters n {| next := Idx i; alerts := log |})
  = {| next := Idx ((i + n) mod length (apiKeys parameters));
       alerts := log |}.
Proof.
  revert i. induction n as [|n IH]; intros i Hi.
  - cbn. rewrite Nat.add_0_r, Nat.mod_small by done. done.
  - destruct (apiKeysRotated_in_bounds parameters i log Hi) as (key & _ & Hstep).
    cbn [calls]. rewrite Hstep.
    assert (Hj : ((i + 1) mod length (apiKeys parameters)
                  < length (apiKeys parameters))%nat)
      by (apply Nat.mod_upper_bound; lia).
    specialize (IH _ Hj).
    destruct (calls parameters n _) as [keys s2]. cbn [snd] in *.
    rewrite IH. do 2 f_equal.
    rewrite Nat.Div0.add_mod_idemp_l. f_equal. lia.
Qed.

Lemma calls_length (parameters : Parameters) (n : nat) (s : State) :
  length (fst (calls parameters n s)) = n.
Proof.
  revert s. induction n as [|n IH]; intros s; [done|].
  cbn [calls]. destruct (apiKeysRotated parameters s) as [key s1].
  specialize (IH s1). destruct (calls parameters n s1). cbn in *. lia.
Qed.

(** X1. From any index inside the key list, as many calls of [next()] as
    there are keys return the key list rotated to start at that index: every
    key exactly once, none skipped; the index is then back where it was and
    nothing is alerted. *)
Theorem rotator_window (parameters : Parameters) (i : nat)
    (log : list Diagnostic) :
  (i < length (apiKeys parameters))%nat →
  fst (calls parameters (length (apiKeys parameters)) (in_state i log))
  = app (drop i (apiKeys parameters)) (take i (apiKeys parameters))
  ∧ fst (calls parameters (length (apiKeys parameters)) (in_state i log))
    ≡ₚ apiKeys parameters
  ∧ snd (calls parameters (length (apiKeys parameters)) (in_state i log))
    = in_state i log.
Proof.
  intros Hi. unfold in_state.
  set (keys := apiKeys parameters) in *.
  assert (Hwindow :
    fst (calls parameters (length keys) {| next := Idx i; alerts := log |})
    = app (drop i keys) (take i keys)).
  { destruct (calls_from parameters (length keys) i log Hi) as [H _].
    fold keys in H.
    apply list_eq. intros k.
    destruct (decide (k < length keys)%nat) as [Hk|Hk].
    - pose proof (calls_length parameters (length keys)
                    {| next := Idx i; alerts := log |}) as Hlen.
      destruct (lookup_lt_is_Some_2
                  (fst (calls parameters (length keys)
                          {| next := Idx i; alerts := log |})) k)
        as [key Hkey]; [lia|].
      rewrite Hkey.
      assert (Hseq : seq 0 (length keys) !! k = Some k)
        by (rewrite lookup_seq; split; [done | lia]).
      pose proof (Forall2_lookup_lr _ _ _ _ _ _ H Hseq Hkey) as Hget.
      cbv beta in Hget. rewrite <- Hget.
      destruct (decide (i + k < length keys)%nat) as [Hlow|Hhigh].
      + rewrite Nat.mod_small by done.
        rewrite lookup_app_l by (rewrite length_drop; lia).
        by rewrite lookup_drop.
      + rewrite lookup_app_r by (rewrite length_drop; lia).
        rewrite length_drop, lookup_take_lt by lia.
        f_equal.
        replace (i + k)%nat with ((k - (length keys - i)) + 1 * length keys)%nat
          by lia.
        rewrite Nat.Div0.mod_add, Nat.mod_small by lia. done.
    - rewrite !lookup_ge_None_2; [done | |].
      + rewrite length_app, length_drop, length_take. lia.
      + rewrite calls_length. lia. }
  split; [exact Hwindow|]. split.
  - rewrite Hwindow, Permutation_app_comm, take_drop. done.
  - rewrite calls_state by done. do 2 f_equal.
    replace (i + length keys)%nat with (i + 1 * length keys)%nat by lia.
    rewrite Nat.Div0.mod_add, Nat.mod_small by done. done.
Qed.

Lemma rotator_window_witness :
  fst (calls three_keys (length (apiKeys three_keys)) (in_state 1 []))
  = app (drop 1 (apiKeys three_keys)) (take 1 (apiKeys three_keys)).
Proof.
  apply (rotator_window three_keys 1 []). cbn. lia.
Defined.

(** ** The queries the module issues *)

Lemma pageQueries_calls (parameters : Parameters) (response : Response.t)
    (pages : list Z) (s : State) :
  map (λ query, username (Query.auth query))
      (fst (pageQueries parameters response pages s))
  = fst (calls parameters (length pages) s)
  ∧ snd (pageQueries parameters response pages s)
    = snd (calls parameters (length pages) s).
Proof.
  revert s. induction pages as [|p pages IH]; intros s; [done|].
  cbn [pageQueries calls length].
  destruct (apiKeysRotated parameters s) as [key s1].
  specialize (IH s1).
  destruct (pageQueries parameters response pages s1) as [queries s2].
  destruct (calls parameters (length pages) s1) as [keys s3].
  cbn in *. destruct IH as [-> ->]. done.
Qed.

Lemma pageQueries_elem (parameters : Parameters) (response : Response.t)
    (pages : list Z) (s : State) (query : Query.t) :
  query ∈ fst (pageQueries parameters response pages s) →
  ∃ key p, p ∈ pages ∧ query = pageQuery response key p.
Proof.
  revert s. induction pages as [|p pages IH]; intros s; cbn [pageQueries].
  - intros H. by apply elem_of_nil in H.
  - destruct (apiKeysRotated parameters s) as [key s1].
    specialize (IH s1).
    destruct (pageQueries parameters response pages s1) as [queries s2].
    cbn in *. intros [->|Hin]%elem_of_cons.
    + exists key, p. split; [left | done].
    + destruct (IH Hin) as (key' & p' & Hp' & ->).
      exists key', p'. split; [by right | done].
Qed.


(** [trim] takes the no-break space with the other white space. *)
Example trim_no_break_space :
  Str.trim (String (ascii_of_nat 160) " John Smith	 ") = "John Smith".
Proof. reflexivity. Qed.


Lemma pageQueries_start_index (parameters : Parameters)
    (response : Response.t) (pages : list Z) (s : State) :
  map (λ query, start_index (Query.params query))
      (fst (pageQueries parameters response pages s))
  = (λ k, Some (100 * k)) <$> pages.
Proof.
  revert s. induction pages as [|p pages IH]; intros s; [done|].
  cbn [pageQueries].
  destruct (apiKeysRotated parameters s) as [key s1].
  specialize (IH s1).
  destruct (pageQueries parameters response pages s1) as [qs s2].
  cbn in *. rewrite IH. do 2 f_equal. lia.
Qed.

(** X3. When the page numbers can be built (ceil(T / 100) <= 2^32 - 1), the
    start indices of the follow-up queries are 100, 200, ... up to
    100 (last - 1), where last = min(ceil(T / 100), 10): when T <= 1000 the
    pages 1 to last cover all T results; when T > 1000 the last page asked
    for is page 10, and no result from index 1000 on is ever requested.
    When ceil(T / 100) > 2^32 - 1 the page numbers cannot be built, and
    [paginate] rejects with a RangeError, leaving the rotation and the
    alerts as they were: no follow-up is made. *)
Theorem pagination_coverage (parameters : Parameters)
    (http : Query.t → Reply.t) (callImportance : string)
    (completion : list nat) (response : Response.t) (s : State) :
  let total := total_results (Response.data response) in
  let last := Z.min (ceil_div_100 total) 10 in
  100 < total →
  (ceil_div_100 total ≤ 2 ^ 32 - 1 →
   ∃ pages,
     pageNumbers (ceil_div_100 total) = Ok pages
     ∧ map (λ query, start_index (Query.params query))
         (fst (pageQueries parameters response pages s))
       = (λ k, Some (100 * k)) <$> seqZ 1 (last - 1)
     ∧ (total ≤ 1000 → total ≤ 100 * last)
     ∧ (1000 < total →
        last = 10
        ∧ ∀ query i,
            query ∈ fst (pageQueries parameters response pages s) →
            start_index (Query.params query) = Some i → i + 100 ≤ 1000))
  ∧ (2 ^ 32 - 1 < ceil_div_100 total →
     pageNumbers (ceil_div_100 total)
     = Throw (RangeError "Invalid array length")
     ∧ paginate parameters http callImportance completion (Some response) s
       = (Rejected (RangeError "Invalid array length"), s)).
Proof.
  intros total last Hgt.
  pose proof (ceil_div_100_bounds total) as Hceil.
  split.
  - intros Hbound.
    assert (Hpages : pageNumbers (ceil_div_100 total)
                     = Ok (seqZ 1 (last - 1)))
      by (apply pageNumbers_range; lia).
    exists (seqZ 1 (last - 1)). split; [exact Hpages|]. split; [|split].
    + by rewrite pageQueries_start_index.
    + intros Hle. unfold last. lia.
    + intros Hbig. assert (Hlast : last = 10) by (unfold last; lia).
      split; [done|].
      intros query i Hin Hi.
      apply pageQueries_elem in Hin as (key & p & Hp & ->).
      apply elem_of_seqZ in Hp. cbn in Hi. simplify_eq. lia.
  - intros Hbig. split; [by apply pageNumbers_overflow|].
    by apply paginate_overflow.
Qed.

Lemma pagination_coverage_witness :
  ∃ pages,
    pageNumbers (ceil_div_100 950) = Ok pages
    ∧ map (λ query, start_index (Query.params query))
        (fst (pageQueries three_keys (first_page 950) pages initial))
      = (λ k, Some (100 * k)) <$> seqZ 1 (Z.min (ceil_div_100 950) 10 - 1)
    ∧ (950 ≤ 1000 → 950 ≤ 100 * Z.min (ceil_div_100 950) 10)
    ∧ (1000 < 950 →
       Z.min (ceil_div_100 950) 10 = 10
       ∧ ∀ query i,
           query ∈ fst (pageQueries three_keys (first_page 950) pages initial) →
           start_index (Query.params query) = Some i → i + 100 ≤ 1000).
Proof.
  apply (pagination_coverage three_keys (answering 200 no_results) "warning"
           [] (first_page 950) initial).
  - vm_compute. reflexivity.
  - vm_compute. discriminate.
Defined.

(** X4. The follow-up queries draw their credentials in page order,
    continuing the rotation where it stands: from an index i inside the key
    list, follow-up number k (from 0) is sent with the key at position
    (i + k) mod length, the index advances by the number of follow-ups, and
    building the queries alerts nothing. *)
Theorem pagination_credentials (parameters : Parameters)
    (response : Response.t) (pages : list Z) (i : nat)
    (log : list Diagnostic) :
  (i < length (apiKeys parameters))%nat →
  Forall2 (λ k query,
             apiKeys parameters !! ((i + k) mod length (apiKeys parameters))%nat
             = Some (username (Query.auth query)))
          (seq 0 (length pages))
          (fst (pageQueries parameters response pages (in_state i log)))
  ∧ snd (pageQueries parameters response pages (in_state i log))
    = in_state ((i + length pages) mod length (apiKeys parameters)) log.
Proof.
  intros Hi. unfold in_state.
  destruct (pageQueries_calls parameters response pages
              {| next := Idx i; alerts := log |}) as [Hkeys Hstate].
  split.
  - destruct (calls_from parameters (length pages) i log Hi) as [H _].
    rewrite <- Hkeys in H. by apply Forall2_fmap_r in H.
  - rewrite Hstate. by apply calls_state.
Qed.

Lemma pagination_credentials_witness :
  snd (pageQueries three_keys (first_page 950) (seqZ 1 9) (in_state 1 []))
  = in_state ((1 + length (seqZ 1 9)) mod length (apiKeys three_keys)) [].
Proof.
  apply (pagination_credentials three_keys (first_page 950) (seqZ 1 9) 1 []).
  cbn. lia.
Defined.

(** ** Effects of the follow-up calls *)

Lemma append_alerts_app (l1 l2 : list Diagnostic) (s : State) :
  append_alerts (app l1 l2) s = append_alerts l2 (append_alerts l1 s).
Proof. unfold append_alerts. apply foldl_app. Qed.

Lemma append_alerts_state (log : list Diagnostic) (s : State) :
  next (append_alerts log s) = next s
  ∧ alerts (append_alerts log s) = app (alerts s) log.
Proof.
  revert s. induction log as [|d log IH]; intros s.
  - cbn. by rewrite app_nil_r.
  - change (append_alerts (d :: log) s) with (append_alerts log (alert d s)).
    destruct (IH (alert d s)) as [-> ->]. cbn. by rewrite <- app_assoc.
Qed.

Lemma request_run (parameters : Parameters) (http : Query.t → Reply.t)
    (callImportance : string) (query : Query.t) (s : State) :
  request parameters http callImportance (Some query) s
  = (settlement_of (outcome http query),
     append_alerts (diagnostics_of http callImportance query) s).
Proof.
  unfold request, requestor, outcome, diagnostics_of, abind, settle, resolve.
  cbn [RequestorConfig.messages].
  destruct (messages _) as [[text|]|e]; reflexivity.
Qed.

Lemma settle_in_order_length {A} (promises : list (Async A))
    (completion : list nat) (values : list (option A)) (s : State)
    (xs : list A) :
  fst (settle_in_order promises completion values s) = Fulfilled xs →
  length xs = length values.
Proof.
  revert values s.
  induction completion as [|i rest IH]; intros values s; cbn [settle_in_order];
    [done|].
  destruct (promises !! i) as [p|]; [|apply IH].
  destruct (values !! i) as [[a|]|]; [apply IH| |apply IH].
  destruct (p s) as [[a|e|] s']; [|done|apply IH].
  destruct (filled _) as [result|] eqn:Hfilled.
  - cbn. intros [= <-]. apply length_mapM in Hfilled.
    by rewrite length_insert in Hfilled.
  - intros H. apply IH in H. by rewrite length_insert in H.
Qed.

Section PromiseAllEffects.
Context {A : Type}.
Variable promises : list (Async A).
Variable acts : list (A * list Diagnostic).
Hypothesis performs :
  Forall2 (λ p a, ∀ s, p s = (Fulfilled (fst a), append_alerts (snd a) s))
    promises acts.

Lemma settle_in_order_run (completion : list nat) :
  ∀ (values : list (option A)) (s : State),
    NoDup completion → completion ≠ [] →
    length values = length acts →
    (∀ i, i ∈ completion → values !! i = Some None) →
    (∀ i, (i < length acts)%nat → i ∉ completion →
          values !! i = Some <$> (fst <$> acts) !! i) →
    settle_in_order promises completion values s
    = (Fulfilled (fst <$> acts),
       append_alerts (concat (log_at acts <$> completion)) s).
Proof.
  induction completion as [|i rest IH]; intros values s Hnodup Hne Hlen Hin Hout;
    [done|].
  apply NoDup_cons in Hnodup as [Hi Hnodup].
  assert (Hvi : values !! i = Some None) by (apply Hin; left).
  assert (Hlt : (i < length acts)%nat)
    by (rewrite <- Hlen; eapply lookup_lt_Some; eauto).
  destruct (lookup_lt_is_Some_2 acts i Hlt) as [[x l] Ha].
  destruct (Forall2_lookup_r _ _ _ _ _ performs Ha) as (p & Hp & Hact).
  cbn [settle_in_order]. unfold Async in *. rewrite Hp, Hvi, Hact.
  cbn [fst snd fmap list_fmap concat].
  assert (Hlog : log_at acts i = l) by (unfold log_at; rewrite Ha; done).
  rewrite Hlog, append_alerts_app.
  assert (Hvalues' : ∀ j, (j < length acts)%nat → j ∉ rest →
                          <[i := Some x]> values !! j
                          = Some <$> (fst <$> acts) !! j).
  { intros j Hj Hjrest. destruct (decide (j = i)) as [->|Hji].
    - rewrite list_lookup_insert_eq by lia.
      by rewrite list_lookup_fmap, Ha.
    - rewrite list_lookup_insert_ne by done. apply Hout; [done|].
      rewrite not_elem_of_cons. done. }
  destruct rest as [|j rest'].
  - assert (Hall : <[i := Some x]> values = Some <$> (fst <$> acts)).
    { apply list_eq. intros j. rewrite list_lookup_fmap.
      destruct (decide (j < length acts)%nat) as [Hj|Hj].
      - apply Hvalues'; [done | apply not_elem_of_nil].
      - rewrite !lookup_ge_None_2; [done | rewrite length_fmap; lia |].
        rewrite length_insert. lia. }
    rewrite Hall, filled_all. reflexivity.
  - assert (Hji : j ≠ i) by (intros ->; apply Hi; left).
    rewrite (filled_hole _ j).
    2:{ rewrite list_lookup_insert_ne by done. apply Hin. right. left. }
    apply IH; [done | done | by rewrite length_insert | | done].
    intros k Hk. rewrite list_lookup_insert_ne.
    + apply Hin. by right.
    + intros ->. done.
Qed.

Lemma Promise_all_run (completion : list nat) (s : State) :
  completion ≡ₚ seq 0 (length promises) →
  Promise_all promises completion s
  = (Fulfilled (fst <$> acts),
     append_alerts (concat (log_at acts <$> completion)) s).
Proof.
  intros Hperm.
  pose proof (Forall2_length _ _ _ performs) as Hlen.
  destruct (decide (promises = [])) as [Hnil|Hsome].
  { rewrite Hnil in *. destruct acts; [|discriminate].
    apply Permutation_nil_r in Hperm. subst completion. reflexivity. }
  rewrite Promise_all_nonempty by done.
  assert (Hpos : (0 < length promises)%nat)
    by (destruct promises; [done | cbn; lia]).
  apply settle_in_order_run.
  - rewrite Hperm. apply NoDup_seq.
  - intros ->. apply Permutation_nil_l in Hperm.
    destruct (length promises); [lia | done].
  - rewrite length_replicate. exact Hlen.
  - intros i Hi. rewrite Hperm in Hi. apply elem_of_seq in Hi.
    apply lookup_replicate_2. lia.
  - intros i Hi Hout. exfalso. apply Hout. rewrite Hperm.
    apply elem_of_seq. unfold Async in *. lia.
Qed.

Lemma logs_in_completion_order (completion : list nat) :
  completion ≡ₚ seq 0 (length acts) →
  concat (log_at acts <$> completion) ≡ₚ concat (snd <$> acts).
Proof.
  intros Hperm. rewrite Hperm.
  replace (log_at acts <$> seq 0 (length acts)) with (snd <$> acts); [done|].
  apply list_eq. intros i. rewrite !list_lookup_fmap.
  destruct (decide (i < length acts)%nat) as [Hi|Hi].
  - rewrite lookup_seq_lt by done. cbn. unfold log_at.
    destruct (lookup_lt_is_Some_2 acts i Hi) as [a Ha]. by rewrite Ha.
  - rewrite lookup_seq_ge by lia. rewrite lookup_ge_None_2 by lia. done.
Qed.
End PromiseAllEffects.

Lemma diagnostics_of_status (http : Query.t → Reply.t) (callImportance : string)
    (query : Query.t) :
  diagnostics_of http callImportance query
  = if (400 <=? Reply.status (http query))
       && negb (Reply.status (http query) =? 429)
       && negb (Reply.status (http query) =? 401)
    then [ {| message := failure_text http query;
              importance := callImportance |} ]
    else [].
Proof.
  unfold diagnostics_of, messages, failure_text. cbn [config response].
  destruct (Z.eqb_spec (Reply.status (http query)) 429) as [->|?]; [done|].
  destruct (Z.eqb_spec (Reply.status (http query)) 401) as [->|?]; [done|].
  rewrite Z.geb_leb.
  destruct (400 <=? Reply.status (http query)); reflexivity.
Qed.

Lemma pageQueries_alerts (parameters : Parameters) (response : Response.t)
    (pages : list Z) (s : State) :
  alerts (snd (pageQueries parameters response pages s)) = alerts s.
Proof.
  revert s. induction pages as [|p pages IH]; intros s; [done|].
  cbn [pageQueries].
  destruct (apiKeysRotated parameters s) as [key s1] eqn:Hkey.
  specialize (IH s1).
  destruct (pageQueries parameters response pages s1) as [queries s2].
  cbn in *. rewrite IH. unfold apiKeysRotated in Hkey. by simplify_eq.
Qed.

Lemma pageQueries_length (parameters : Parameters) (response : Response.t)
    (pages : list Z) (s : State) :
  length (fst (pageQueries parameters response pages s)) = length pages.
Proof.
  revert s. induction pages as [|p pages IH]; intros s; [done|].
  cbn [pageQueries].
  destruct (apiKeysRotated parameters s) as [key s1].
  specialize (IH s1).
  destruct (pageQueries parameters response pages s1) as [queries s2].
  cbn in *. lia.
Qed.

Lemma paginate_run (parameters : Parameters) (http : Query.t → Reply.t)
    (callImportance : string) (completion : list nat) (response : Response.t)
    (s : State) (pages : list Z) :
  let queries := fst (pageQueries parameters response pages s) in
  let acts :=
    (λ query, (answer http query, diagnostics_of http callImportance query))
    <$> queries in
  100 < total_results (Response.data response) →
  pageNumbers (ceil_div_100 (total_results (Response.data response)))
  = Ok pages →
  completion ≡ₚ seq 0 (length queries) →
  (∀ query, query ∈ queries → ¬ fatal http query) →
  paginate parameters http callImportance completion (Some response) s
  = (Fulfilled (Some (Some response :: map (answer http) queries)),
     append_alerts (concat (log_at acts <$> completion))
       (snd (pageQueries parameters response pages s))).
Proof.
  intros queries acts Hgt Hpages Hperm Hfine.
  rewrite (paginate_unfold _ _ _ _ _ _ pages) by done.
  fold queries. unfold abind.
  assert (Hperforms :
    Forall2 (λ p a, ∀ s0 : State,
               p s0 = (Fulfilled (fst a), append_alerts (snd a) s0))
      (map (λ query, request parameters http callImportance (Some query)) queries)
      acts).
  { unfold acts. apply Forall2_fmap, Forall_Forall2_diag, Forall_forall.
    intros query Hin s0. rewrite request_run.
    rewrite (outcome_answer http query) by (apply Hfine, Hin). reflexivity. }
  rewrite <- (length_fmap
                (λ query, request parameters http callImportance (Some query)))
    in Hperm.
  rewrite (Promise_all_run _ _ Hperforms completion _ Hperm).
  unfold resolve, acts. rewrite <- list_fmap_compose. reflexivity.
Qed.

Lemma Promise_all_length {A} (promises : list (Async A))
    (completion : list nat) (s : State) (xs : list A) :
  fst (Promise_all promises completion s) = Fulfilled xs →
  length xs = length promises.
Proof.
  unfold Promise_all. destruct promises as [|p ps].
  - cbn. by intros [= <-].
  - intros H. apply settle_in_order_length in H.
    by rewrite length_replicate in H.
Qed.

(** X5. Whatever the order in which the follow-up calls complete, and even
    if some never complete, a pagination that is fulfilled has the first
    Response at its head and between 1 and 10 elements: one when
    T <= 100, and min(ceil(T / 100), 10) otherwise. *)
Theorem paginate_size (parameters : Parameters) (http : Query.t → Reply.t)
    (callImportance : string) (completion : list nat) (response : Response.t)
    (s : State) (result : option (list (option Response.t))) :
  fst (paginate parameters http callImportance completion (Some response) s)
  = Fulfilled result →
  ∃ rest,
    result = Some (Some response :: rest)
    ∧ (length rest ≤ 9)%nat
    ∧ Z.of_nat (length rest)
      = if total_results (Response.data response) >? 100
        then Z.min (ceil_div_100 (total_results (Response.data response))) 10 - 1
        else 0.
Proof.
  destruct (Z.gtb_spec (total_results (Response.data response)) 100) as [Hgt|Hle].
  - destruct (pageNumbers
                (ceil_div_100 (total_results (Response.data response))))
      as [pages|e] eqn:Hpages.
    2:{ unfold paginate.
        destruct (Z.gtb_spec (total_results (Response.data response)) 100);
          [|lia].
        rewrite Hpages. done. }
    rewrite (paginate_unfold _ _ _ _ _ _ pages) by done. unfold abind.
    destruct (Promise_all _ _ _) as [[xs|e|] s'] eqn:Hall; cbn; [|done|done].
    intros [= <-]. exists xs. split; [done|].
    assert (Hlen : length xs = length pages).
    { rewrite <- (pageQueries_length parameters response _ s).
      rewrite <- (length_fmap
                    (λ query, request parameters http callImportance (Some query))).
      exact (Promise_all_length _ _ _ xs (f_equal fst Hall)). }
    apply pageNumbers_Ok in Hpages as [Hrange ->].
    rewrite Hlen, length_seqZ.
    pose proof (ceil_div_100_bounds (total_results (Response.data response))).
    lia.
  - unfold paginate.
    destruct (Z.gtb_spec (total_results (Response.data response)) 100); [lia|].
    cbn. intros [= <-]. exists []. cbn. split; [done|]. lia.
Qed.

Lemma paginate_size_witness :
  ∃ rest,
    Some [Some (first_page 950); None; None; None; None; None; None; None; None;
          None]
    = Some (Some (first_page 950) :: rest)
    ∧ (length rest ≤ 9)%nat
    ∧ Z.of_nat (length rest)
      = if total_results (Response.data (first_page 950)) >? 100
        then Z.min (ceil_div_100
                      (total_results (Response.data (first_page 950)))) 10 - 1
        else 0.
Proof.
  apply (paginate_size three_keys (answering 500 no_results) "warning"
           [0; 1; 2; 3; 4; 5; 6; 7; 8]%nat (first_page 950) initial).
  reflexivity.
Defined.

(** X6. When the follow-up calls all complete and none is fatal, paginating
    alerts exactly one diagnostic for each follow-up call answered with a
    status from 400 up (naming the individual and that call's page) and
    nothing else; the statement fixes these diagnostics up to their order,
    which is that of completion.  (When the page numbers cannot be built no
    call is made and nothing is alerted.) *)
Theorem pagination_diagnostics (parameters : Parameters)
    (http : Query.t → Reply.t) (callImportance : string)
    (completion : list nat) (response : Response.t) (s : State) :
  100 < total_results (Response.data response) →
  (∀ pages,
     pageNumbers (ceil_div_100 (total_results (Response.data response)))
     = Ok pages →
     let queries := fst (pageQueries parameters response pages s) in
     completion ≡ₚ seq 0 (length queries) →
     (∀ query, query ∈ queries → ¬ fatal http query) →
     ∃ new,
       alerts (snd (paginate parameters http callImportance completion
                      (Some response) s))
       = app (alerts s) new
       ∧ new ≡ₚ (λ query, {| message := failure_text http query;
                             importance := callImportance |})
                <$> filter (λ query, 400 ≤ Reply.status (http query)) queries)
  ∧ (∀ e,
       pageNumbers (ceil_div_100 (total_results (Response.data response)))
       = Throw e →
       alerts (snd (paginate parameters http callImportance completion
                      (Some response) s))
       = alerts s).
Proof.
  intros Hgt. split.
  2:{ intros e He. unfold paginate.
      destruct (Z.gtb_spec (total_results (Response.data response)) 100);
        [|lia].
      rewrite He. reflexivity. }
  intros pages Hpages queries Hperm Hfine.
  rewrite (paginate_run parameters http callImportance completion response s
             pages Hgt Hpages Hperm Hfine).
  fold queries. cbn [snd].
  set (acts := (λ query, (answer http query,
                          diagnostics_of http callImportance query))
               <$> queries).
  exists (concat (log_at acts <$> completion)).
  destruct (append_alerts_state (concat (log_at acts <$> completion))
              (snd (pageQueries parameters response pages s))) as [_ ->].
  rewrite pageQueries_alerts. split; [done|].
  rewrite (logs_in_completion_order acts completion)
    by (unfold acts; rewrite length_fmap; done).
  unfold acts. rewrite <- list_fmap_compose.
  match goal with |- ?l ≡ₚ ?r => replace l with r; [done|] end. symmetry.
  clear Hperm acts. revert Hfine. generalize queries. clear queries.
  intros queries Hfine.
  induction queries as [|query queries IH]; [done|].
  rewrite filter_cons. cbn [fmap list_fmap concat compose snd].
  rewrite IH by (intros q Hq; apply Hfine; by right).
  rewrite diagnostics_of_status.
  assert (Hq : ¬ fatal http query) by (apply Hfine; left).
  unfold fatal in Hq.
  destruct (Z.eqb_spec (Reply.status (http query)) 429); [tauto|].
  destruct (Z.eqb_spec (Reply.status (http query)) 401); [tauto|].
  case_decide as Hstatus.
  - rewrite (proj2 (Z.leb_le _ _) Hstatus). reflexivity.
  - destruct (Z.leb_spec 400 (Reply.status (http query))); [lia|]. reflexivity.
Qed.

Lemma pagination_diagnostics_witness :
  ∃ new,
    alerts (snd (paginate three_keys (answering 503 no_results) "warning"
                   [1; 0]%nat (Some (first_page 250)) initial))
    = app (alerts initial) new
    ∧ new ≡ₚ (λ query, {| message := failure_text (answering 503 no_results) query;
                          importance := "warning" |})
             <$> filter (λ query,
                           400 ≤ Reply.status (answering 503 no_results query))
                   (fst (pageQueries three_keys (first_page 250) [1; 2]
                           initial)).
Proof.
  apply (proj1 (pagination_diagnostics three_keys (answering 503 no_results)
                  "warning" [1; 0]%nat (first_page 250) initial
                  ltac:(vm_compute; reflexivity)) [1; 2]).
  - reflexivity.
  - apply perm_swap.
  - intros query _ [H | H]; cbn in H; lia.
Defined.

(** ** The pipeline beyond the first page *)

Lemma flatMap_parse_undefined (parameters : Parameters) (entry : Entry.t)
    (n : nat) :
  flatMap_parse parameters (replicate n None) entry = Ok (replicate n None).
Proof.
  induction n as [|n IH]; [done|].
  cbn [replicate flatMap_parse parse rbind]. rewrite IH. reflexivity.
Qed.

Lemma run_unfold (parameters : Parameters) (http : Query.t → Reply.t)
    (callImportance : string) (completion : list nat) (entry : Entry.t)
    (s s1 : State) (query : Query.t) :
  locate parameters entry s = (Some query, s1) →
  run parameters http callImportance completion entry s
  = (await dataLocatedRequested :=
       request parameters http callImportance (Some query) in
     await dataLocatedPaginated :=
       paginate parameters http callImportance completion
         dataLocatedRequested in
     match dataLocatedPaginated with
     | None => resolve None
     | Some responses =>
         await dataParsed := settle (flatMap_parse parameters responses entry) in
         resolve (Some dataParsed)
     end) s1.
Proof. intros H. unfold run. rewrite H. reflexivity. Qed.

(** X7. When the first call of an Entry is answered with a status from 400
    up: status 429 rejects the run with the rate-limit error and status 401
    with the invalid-key error naming the key drawn for this Entry, nothing
    being alerted; any other such status makes the run resolve with no rows
    ([undefined]) after exactly one diagnostic naming the individual and
    page 1.  The key of the call is the one that [next()] returned for this
    Entry (the key at the current index, when that is inside the key list).
    No follow-up call is made: the index has advanced by the one credential
    only. *)
Theorem run_first_call_fails (parameters : Parameters)
    (http : Query.t → Reply.t) (callImportance : string)
    (completion : list nat) (entry : Entry.t) (s s1 : State)
    (query : Query.t) :
  locate parameters entry s = (Some query, s1) →
  400 ≤ Reply.status (http query) →
  (Reply.status (http query) = 429 →
   run parameters http callImportance completion entry s
   = (Rejected (Error "The rate limit has been reached"), s1))
  ∧ (Reply.status (http query) = 401 →
     run parameters http callImportance completion entry s
     = (Rejected (Error ("API key " +:+ to_string (username (Query.auth query))
                         +:+ " is invalid")), s1))
  ∧ (¬ fatal http query →
     run parameters http callImportance completion entry s
     = (Fulfilled None,
        alert {| message := failure_text http query;
                 importance := callImportance |} s1))
  ∧ (username (Query.auth query), s1) = apiKeysRotated parameters s
  ∧ (∀ i, next s = Idx i → (i < length (apiKeys parameters))%nat →
          apiKeys parameters !! i = Some (username (Query.auth query)))
  ∧ page (Query.passthrough query) = 1.
Proof.
  intros Hlocate Hstatus.
  assert (Hkey : (username (Query.auth query), s1)
                 = apiKeysRotated parameters s).
  { revert Hlocate. unfold locate.
    destruct (column entry _); try done.
    destruct (negb _); [done|].
    destruct (apiKeysRotated parameters s) as [key s']. cbn.
    intros [= <- <-]. done. }
  assert (Hrun : ∀ e,
    outcome http query = Throw e →
    run parameters http callImportance completion entry s = (Rejected e, s1)).
  { intros e He. rewrite (run_unfold _ _ _ _ _ _ _ _ Hlocate).
    unfold abind at 1. rewrite request_run. rewrite He. cbn.
    unfold diagnostics_of. unfold outcome in He.
    destruct (messages _) as [[text|]|e']; cbn in He; simplify_eq. reflexivity. }
  split; [|split; [|split; [|split; [exact Hkey|split]]]].
  - intros H. apply Hrun. unfold outcome, messages. cbn [config response].
    rewrite H. reflexivity.
  - intros H. apply Hrun. unfold outcome, messages. cbn [config response].
    rewrite H. reflexivity.
  - intros Hfine. rewrite (run_unfold _ _ _ _ _ _ _ _ Hlocate).
    unfold abind at 1. rewrite request_run.
    unfold outcome, diagnostics_of, messages, failure_text, fatal in *.
    cbn [config response].
    destruct (Z.eqb_spec (Reply.status (http query)) 429); [tauto|].
    destruct (Z.eqb_spec (Reply.status (http query)) 401); [tauto|].
    destruct (Z.geb_spec (Reply.status (http query)) 400); [|lia].
    reflexivity.
  - intros i Hi Hlt. destruct s as [index log]. cbn in Hi. subst index.
    destruct (apiKeysRotated_in_bounds parameters i log Hlt)
      as (key & Hlookup & Hstep).
    rewrite Hstep in Hkey. by simplify_eq.
  - revert Hlocate. unfold locate.
    destruct (column entry _); try done.
    destruct (negb _); [done|].
    destruct (apiKeysRotated parameters s) as [key s']. cbn.
    intros [= <- <-]. done.
Qed.

Lemma run_first_call_fails_witness :
  run one_key (answering 429 no_results) "warning" [] (named "John Smith" 3)
    initial
  = (Rejected (Error "The rate limit has been reached"),
     snd (apiKeysRotated one_key initial)).
Proof.
  refine (proj1 (run_first_call_fails one_key (answering 429 no_results)
                   "warning" [] (named "John Smith" 3) initial _ _ _ _) _).
  - reflexivity.
  - cbn. lia.
  - reflexivity.
Defined.

(** X8. When the first call succeeds and announces at most 100 results, the
    run is the parse of that one Response: it resolves with the rows [parse]
    returns for it, in order, alerts nothing and draws no further
    credential; and it rejects with the exception [parse] throws. *)
Theorem run_single_page (parameters : Parameters) (http : Query.t → Reply.t)
    (callImportance : string) (completion : list nat) (entry : Entry.t)
    (s s1 : State) (query : Query.t) :
  locate parameters entry s = (Some query, s1) →
  Reply.status (http query) < 400 →
  total_results (Reply.data (http query)) ≤ 100 →
  (∀ rows,
     parse parameters (Some (response_of query (http query))) entry
     = Ok (Some rows) →
     run parameters http callImportance completion entry s
     = (Fulfilled (Some (Some <$> rows)), s1))
  ∧ (∀ e,
       parse parameters (Some (response_of query (http query))) entry
       = Throw e →
       run parameters http callImportance completion entry s
       = (Rejected e, s1)).
Proof.
  intros Hlocate Hstatus Htotal.
  assert (Hrun :
    run parameters http callImportance completion entry s
    = (await dataParsed :=
         settle (flatMap_parse parameters
                   [Some (response_of query (http query))] entry) in
       resolve (Some dataParsed)) s1).
  { rewrite (run_unfold _ _ _ _ _ _ _ _ Hlocate).
    unfold abind at 1. rewrite request_ok by done.
    unfold abind at 1. unfold paginate.
    change (Response.data (response_of query (http query)))
      with (Reply.data (http query)).
    destruct (Z.gtb_spec (total_results (Reply.data (http query))) 100); [lia|].
    reflexivity. }
  rewrite Hrun. unfold abind, settle, resolve. cbn [flatMap_parse].
  split.
  - intros rows Hparse. rewrite Hparse. cbn. by rewrite app_nil_r.
  - intros e Hparse. rewrite Hparse. reflexivity.
Qed.

Lemma run_single_page_witness :
  run one_key (answering 200 john_smith_body) "warning" []
    (named "John Smith" 3) initial
  = (Fulfilled (Some (Some <$> [[("officerID", VStr "abc123");
                                 ("officerName", VStr "John Smith");
                                 ("officerDateOfBirth", VStr "1980-5");
                                 ("officerAddress", VStr "1 Road")]])),
     snd (apiKeysRotated one_key initial)).
Proof.
  refine (proj1 (run_single_page one_key (answering 200 john_smith_body)
                   "warning" [] (named "John Smith" 3) initial _ _ _ _ _) _ _).
  - reflexivity.
  - cbn. lia.
  - cbn. lia.
  - reflexivity.
Defined.

(** X9. When the first call succeeds and announces more than 100 results
    (with page numbers that can be built, ceil(T / 100) <= 2^32 - 1) but
    every follow-up call is answered with a status from 400 up that is
    not fatal, the run still resolves: with the rows of the first page,
    followed by one [undefined] for each follow-up page (the result of
    [parse] on a missing Response is kept as an element by [flatMap]). *)
Theorem run_swallowed_pages (parameters : Parameters)
    (http : Query.t → Reply.t) (callImportance : string)
    (completion : list nat) (entry : Entry.t) (s s1 : State)
    (query : Query.t) (rows : list OutputRow) (pages : list Z) :
  let first := response_of query (http query) in
  let queries := fst (pageQueries parameters first pages s1) in
  locate parameters entry s = (Some query, s1) →
  Reply.status (http query) < 400 →
  100 < total_results (Reply.data (http query)) →
  pageNumbers (ceil_div_100 (total_results (Reply.data (http query))))
  = Ok pages →
  completion ≡ₚ seq 0 (length queries) →
  (∀ q, q ∈ queries → 400 ≤ Reply.status (http q) ∧ ¬ fatal http q) →
  parse parameters (Some first) entry = Ok (Some rows) →
  fst (run parameters http callImportance completion entry s)
  = Fulfilled (Some (app (Some <$> rows) (replicate (length queries) None)))
  ∧ Z.of_nat (length queries)
    = Z.min (ceil_div_100 (total_results (Reply.data (http query)))) 10 - 1.
Proof.
  intros first queries Hlocate Hstatus Htotal Hpages Hperm Hfail Hparse.
  assert (Hanswers : map (answer http) queries
                     = replicate (length queries) None).
  { clear Hperm. revert Hfail. generalize queries. clear queries.
    intros queries Hfail.
    induction queries as [|q queries IH]; [done|].
    cbn. rewrite IH by (intros q' Hq'; apply Hfail; by right).
    f_equal. unfold answer.
    destruct (Z.geb_spec (Reply.status (http q)) 400) as [_|Hlow]; [done|].
    destruct (Hfail q) as [Hq _]; [left | lia]. }
  split.
  - rewrite (run_unfold _ _ _ _ _ _ _ _ Hlocate).
    unfold abind at 1. rewrite request_ok by done. fold first.
    unfold abind at 1.
    rewrite (paginate_run parameters http callImportance completion first s1
               pages)
      by (try done; intros q Hq; apply Hfail, Hq).
    fold queries. rewrite Hanswers.
    unfold abind, settle, resolve.
    cbn [flatMap_parse]. rewrite Hparse. cbn [rbind].
    rewrite flatMap_parse_undefined. reflexivity.
  - unfold queries. rewrite pageQueries_length.
    apply pageNumbers_Ok in Hpages as [_ ->]. rewrite length_seqZ.
    pose proof (ceil_div_100_bounds (total_results (Reply.data (http query)))).
    lia.
Qed.

Lemma run_swallowed_pages_witness :
  fst (run three_keys (by_page many_smiths unavailable) "warning" [1; 0]%nat
         (named "John Smith" 3) initial)
  = Fulfilled (Some [Some [("officerID", VStr "abc123");
                           ("officerName", VStr "John Smith");
                           ("officerDateOfBirth", VStr "1980-5");
                           ("officerAddress", VStr "1 Road")];
                     None; None]).
Proof.
  refine (proj1 (run_swallowed_pages three_keys
                   (by_page many_smiths unavailable) "warning" [1; 0]%nat
                   (named "John Smith" 3) initial (in_state 1 [])
                   {| Query.url := "https://api.company-information.service.gov.uk/search/officers";
                      Query.auth := {| username := VStr "A"; password := "" |};
                      Query.params := {| q := "John Smith"; items_per_page := 100;
                                         start_index := None |};
                      Query.passthrough :=
                        {| individualName := "John Smith"; page := 1 |} |}
                   [[("officerID", VStr "abc123");
                     ("officerName", VStr "John Smith");
                     ("officerDateOfBirth", VStr "1980-5");
                     ("officerAddress", VStr "1 Road")]] [1; 2]
                   _ _ _ _ _ _ _)).
  - reflexivity.
  - cbn. lia.
  - cbn. lia.
  - reflexivity.
  - apply perm_swap.
  - intros q Hq. apply pageQueries_elem in Hq as (key & p & Hp & ->).
    change [1; 2] with (seqZ 1 2) in Hp. apply elem_of_seqZ in Hp.
    unfold by_page, fatal. cbn [pageQuery Query.passthrough page] in *.
    destruct (Z.eqb_spec (p + 1) 1); [cbn in Hp; lia|]. cbn. lia.
  - reflexivity.
Defined.

(** ** The parser as a filter followed by a map *)

Lemma filterR_Ok_filter {A} (f : A → Result bool) (xs ys : list A) :
  filterR f xs = Ok ys → ys = filter (λ x, holds (f x) = true) xs.
Proof.
  revert ys. induction xs as [|a xs IH]; intros ys H; cbn in H.
  - by simplify_eq.
  - destruct (f a) as [keep|] eqn:Ha; cbn in H; [|done].
    destruct (filterR f xs) as [rest|]; cbn in H; [|done].
    simplify_eq. rewrite filter_cons, Ha, (IH rest eq_refl).
    destruct keep; cbn; by case_decide.
Qed.

Lemma mapR_Ok_Forall2 {A B} (f : A → Result B) (xs : list A) (ys : list B) :
  mapR f xs = Ok ys → Forall2 (λ x y, f x = Ok y) xs ys.
Proof.
  revert ys. induction xs as [|a xs IH]; intros ys H; cbn in H.
  - simplify_eq. constructor.
  - destruct (f a) as [b|] eqn:Hb; cbn in H; [|done].
    destruct (mapR f xs) as [bs|]; cbn in H; [|done].
    simplify_eq. constructor; [done | by apply IH].
Qed.

(** X10. Whenever [parse] returns, its rows are the [fields] of exactly the
    candidates that pass all three filters, one row per such candidate, in
    the order of the Response: no candidate is duplicated or reordered, and
    there are never more rows than candidates. *)
Theorem parse_filters_then_maps (parameters : Parameters)
    (response : Response.t) (entry : Entry.t) (rows : list OutputRow) :
  parse parameters (Some response) entry = Ok (Some rows) →
  let kept :=
    filter (λ individual, passes parameters entry individual = true)
      (items (Response.data response)) in
  Forall2 (λ individual row, fields individual = Ok row) kept rows
  ∧ length rows = length kept
  ∧ (length rows ≤ length (items (Response.data response)))%nat.
Proof.
  intros Hparse kept. unfold parse in Hparse.
  destruct (filterR _ _) as [l1|] eqn:H1; cbn in Hparse; [|done].
  destruct (filterR _ l1) as [l2|] eqn:H2; cbn in Hparse; [|done].
  destruct (filterR _ l2) as [l3|] eqn:H3; cbn in Hparse; [|done].
  destruct (mapR fields l3) as [out|] eqn:H4; cbn in Hparse; [|done].
  simplify_eq.
  apply filterR_Ok_filter in H1, H2, H3. subst l1 l2 l3.
  rewrite !list_filter_filter in H4.
  assert (Hkept : filter
                    (λ x, (holds (byNonMiddleNameMatch parameters entry x) = true
                           ∧ holds (byPreciseMatch parameters entry x) = true)
                          ∧ holds (Ok (byDateOfBirth parameters entry x)) = true)
                    (items (Response.data response)) = kept).
  { unfold kept. apply list_filter_iff. intros individual.
    unfold passes. cbn [holds].
    destruct (byDateOfBirth parameters entry individual),
      (holds (byPreciseMatch parameters entry individual)),
      (holds (byNonMiddleNameMatch parameters entry individual));
      cbn; intuition (auto; discriminate). }
  rewrite Hkept in H4.
  pose proof (mapR_Ok_Forall2 _ _ _ H4) as Hrows.
  split; [done|]. split.
  - symmetry. by eapply Forall2_length.
  - rewrite <- (Forall2_length _ _ _ Hrows). unfold kept. apply length_filter.
Qed.

Lemma parse_filters_then_maps_witness :
  length [[("officerID", VStr "abc123");
           ("officerName", VUndefined);
           ("officerDateOfBirth", VNull);
           ("officerAddress", VUndefined)]]
  = length (filter (λ individual,
                      passes one_key (named "John Smith" 3) individual = true)
              (items (Response.data (page_of [untitled])))).
Proof.
  apply (parse_filters_then_maps one_key (page_of [untitled])
           (named "John Smith" 3)).
  reflexivity.
Defined.

Lemma filterR_total {A} (f : A → Result bool) (xs : list A) :
  Forall (λ x, ∃ keep, f x = Ok keep) xs → ∃ ys, filterR f xs = Ok ys.
Proof.
  induction 1 as [|a xs [keep Ha] _ [ys IH]]; cbn; [eauto|].
  rewrite Ha, IH. cbn. eauto.
Qed.

Lemma mapR_total {A B} (f : A → Result B) (xs : list A) :
  Forall (λ x, ∃ y, f x = Ok y) xs → ∃ ys, mapR f xs = Ok ys.
Proof.
  induction 1 as [|a xs [y Ha] _ [ys IH]]; cbn; [eauto|].
  rewrite Ha, IH. cbn. eauto.
Qed.

Lemma Forall_filterR {A} (P : A → Prop) (f : A → Result bool)
    (xs ys : list A) :
  filterR f xs = Ok ys → Forall P xs → Forall P ys.
Proof.
  intros H. rewrite !Forall_forall. intros HP x Hx.
  apply HP. eapply filterR_Ok_subset; eauto.
Qed.

(** X11. On a Response whose candidates are well formed (display name and
    own link are strings) and for an Entry that has the name column, [parse]
    never throws, whatever the configuration: it returns a sequence of
    rows. *)
Theorem parse_total_on_well_formed (parameters : Parameters)
    (response : Response.t) (entry : Entry.t) (name : string) :
  Forall well_formed (items (Response.data response)) →
  column entry (individualNameField parameters) = VStr name →
  ∃ rows, parse parameters (Some response) entry = Ok (Some rows).
Proof.
  intros Hitems Hname. unfold parse.
  destruct (filterR_total (λ i, Ok (byDateOfBirth parameters entry i))
              (items (Response.data response))) as [l1 H1].
  { apply Forall_forall. eauto. }
  rewrite H1. cbn [rbind].
  pose proof (Forall_filterR _ _ _ _ H1 Hitems) as Hl1.
  destruct (filterR_total (byPreciseMatch parameters entry) l1) as [l2 H2].
  { eapply Forall_impl; [exact Hl1|]. intros i [[t Ht] _].
    unfold byPreciseMatch. destruct (negb _); [eauto|].
    rewrite Ht, Hname. cbn. eauto. }
  rewrite H2. cbn [rbind].
  pose proof (Forall_filterR _ _ _ _ H2 Hl1) as Hl2.
  destruct (filterR_total (byNonMiddleNameMatch parameters entry) l2)
    as [l3 H3].
  { eapply Forall_impl; [exact Hl2|]. intros i [[t Ht] _].
    unfold byNonMiddleNameMatch. destruct (negb _); [eauto|].
    rewrite Ht, Hname. cbn. eauto. }
  rewrite H3. cbn [rbind].
  pose proof (Forall_filterR _ _ _ _ H3 Hl2) as Hl3.
  destruct (mapR_total fields l3) as [rows H4].
  { eapply Forall_impl; [exact Hl3|]. intros i [_ (l & path & Hl & Hpath)].
    unfold fields, officerID. rewrite Hl, Hpath. cbn. eauto. }
  rewrite H4. cbn. eauto.
Qed.

Lemma parse_total_on_well_formed_witness :
  ∃ rows, parse strict_names (Some (page_of [john_smith]))
            (named "John Smith" 3) = Ok (Some rows).
Proof.
  apply (parse_total_on_well_formed strict_names (page_of [john_smith])
           (named "John Smith" 3) "John Smith").
  - repeat constructor; cbn; eauto.
  - reflexivity.
Defined.

(** X12. The exact-name filter is the stricter of the two name filters: for
    an Entry that has the name column, a candidate accepted by the enabled
    exact-name filter is accepted by the first/last-name filter as well. *)
Theorem exact_match_implies_first_last (parameters : Parameters)
    (entry : Entry.t) (individual : Individual) (name : string) :
  column entry (individualNameField parameters) = VStr name →
  truthy (preciseMatch parameters) = true →
  byPreciseMatch parameters entry individual = Ok true →
  byNonMiddleNameMatch parameters entry individual = Ok true.
Proof.
  intros Hname Hon. unfold byPreciseMatch, byNonMiddleNameMatch.
  rewrite Hon, Hname. cbn [negb].
  destruct (negb (truthy (nonMiddleNameMatch parameters))); [done|].
  destruct (normalised (title individual)) as [result|] eqn:Hresult; cbn;
    [|done].
  intros [= Heq]. apply bool_decide_eq_true in Heq. subst result. cbn.
  unfold strict_eq. rewrite !bool_decide_eq_true_2 by done. reflexivity.
Qed.

Lemma exact_match_implies_first_last_witness :
  byNonMiddleNameMatch strict_names (named "jane obrien" 1)
    (titled (VStr "Dr. Jane O'Brien")) = Ok true.
Proof.
  apply (exact_match_implies_first_last strict_names (named "jane obrien" 1)
           (titled (VStr "Dr. Jane O'Brien")) "jane obrien");
    reflexivity.
Defined.

(** ** Normalised names *)

Lemma strip_prefix_suffix (P : ascii → bool) (p s rest : string) :
  Str.strip_prefix p s = Some rest →
  all_chars P s = true → all_chars P rest = true.
Proof.
  revert s. induction p as [|a p IH]; intros s; cbn.
  - by intros [= ->].
  - destruct s as [|b s]; [done|]. case_bool_decide; [|done].
    intros Hrest. cbn. intros [_ Hs]%andb_true_iff. eauto.
Qed.

Lemma strip_prefix_length (p s rest : string) :
  Str.strip_prefix p s = Some rest →
  (String.length rest ≤ String.length s)%nat.
Proof.
  revert s. induction p as [|a p IH]; intros s; cbn.
  - by intros [= ->].
  - destruct s as [|b s]; [done|]. case_bool_decide; [|done].
    intros Hrest%IH. cbn. lia.
Qed.

Lemma match_honorific_suffix (P : ascii → bool) (alternatives : list string)
    (s rest : string) :
  Str.match_honorific alternatives s = Some rest →
  (all_chars P s = true → all_chars P rest = true)
  ∧ (String.length rest ≤ String.length s)%nat.
Proof.
  induction alternatives as [|h alternatives IH];
    cbn [Str.match_honorific]; [done|].
  destruct (Str.strip_prefix h s) as [r|] eqn:Hh; [|done].
  destruct (Str.strip_prefix ". " r) as [r'|] eqn:Hdot.
  { intros [= ->]. split.
    - eauto using strip_prefix_suffix.
    - apply strip_prefix_length in Hh, Hdot. lia. }
  destruct (Str.strip_prefix " " r) as [r'|] eqn:Hspace; [|done].
  intros [= ->]. split.
  - eauto using strip_prefix_suffix.
  - apply strip_prefix_length in Hh, Hspace. lia.
Qed.

Lemma strip_other_length (s : string) :
  (String.length (Str.strip_other s) ≤ String.length s)%nat.
Proof.
  induction s as [|c s IH]; [done|]. cbn.
  destruct (Str.letter_or_space c); cbn; lia.
Qed.

Lemma toLowerCase_length (s : string) :
  String.length (Str.toLowerCase s) = String.length s.
Proof. induction s as [|c s IH]; [done|]. cbn. by rewrite IH. Qed.

(** X13. A normalised name consists of the letters a to z and spaces only,
    and is never longer than the name it comes from. *)
Theorem normalised_alphabet (name normal : string) :
  normalised (VStr name) = Ok (VStr normal) →
  all_chars Str.letter_or_space normal = true
  ∧ (String.length normal ≤ String.length name)%nat.
Proof.
  unfold normalised. intros [= <-]. unfold Str.strip_honorific.
  pose proof (strip_other_alphabet (Str.toLowerCase name)) as Halpha.
  pose proof (strip_other_length (Str.toLowerCase name)) as Hlen.
  rewrite toLowerCase_length in Hlen.
  destruct (Str.match_honorific _ _) as [rest|] eqn:Hmatch; cbn.
  - destruct (match_honorific_suffix Str.letter_or_space _ _ _ Hmatch)
      as [Hrest Hshort].
    split; [by apply Hrest | lia].
  - done.
Qed.

Lemma normalised_alphabet_witness :
  all_chars Str.letter_or_space "jane obrien" = true
  ∧ (String.length "jane obrien" ≤ String.length "Dr. Jane O'Brien")%nat.
Proof.
  apply (normalised_alphabet "Dr. Jane O'Brien" "jane obrien"). reflexivity.
Defined.

Lemma strip_prefix_period (rest : string) :
  all_chars Str.letter_or_space rest = true →
  Str.strip_prefix ". " rest = None.
Proof.
  destruct rest as [|c rest]; [done|]. cbn.
  case_bool_decide as Hc; [|done]. subst c. done.
Qed.

(** X14. The optional period of the honorific pattern never matches: by the
    time the pattern is applied every period has been removed, so the
    normalised name is what the pattern without the period,
    [/^(mr|ms|mrs|miss|dr|sir) /], gives.  An honorific goes only when a
    space follows it. *)
Theorem honorific_period_is_dead (name : string) :
  normalised (VStr name)
  = Ok (VStr (let stripped := Str.strip_other (Str.toLowerCase name) in
              default stripped
                (match_honorific_plain Str.honorifics stripped))).
Proof.
  unfold normalised, Str.strip_honorific. cbv zeta. do 3 f_equal.
  pose proof (strip_other_alphabet (Str.toLowerCase name)) as Halpha.
  generalize dependent (Str.strip_other (Str.toLowerCase name)).
  intros s Halpha.
  induction Str.honorifics as [|h alternatives IH]; [done|].
  cbn [Str.match_honorific match_honorific_plain].
  destruct (Str.strip_prefix h s) as [rest|] eqn:Hh; [|done].
  rewrite strip_prefix_period by eauto using strip_prefix_suffix.
  by rewrite IH.
Qed.

(** ** Birth dates against ISO dates *)

Lemma pretty_four_digits (y : Z) :
  1000 ≤ y ≤ 9999 →
  ∃ a b c d, pretty y = String a (String b (String c (String d ""))).
Proof.
  intros Hy. destruct y as [|p|p]; try lia.
  unfold pretty, pretty_Z, pretty, pretty_positive, pretty, pretty_N.
  case_decide; [done|].
  assert (Hx : (1000 ≤ N.pos p ≤ 9999)%N) by lia.
  generalize dependent (N.pos p). intros x _ Hx.
  rewrite pretty_N_go_step by lia.
  rewrite pretty_N_go_step by (zify; Z.to_euclidean_division_equations; lia).
  rewrite pretty_N_go_step by (zify; Z.to_euclidean_division_equations; lia).
  rewrite pretty_N_go_step by (zify; Z.to_euclidean_division_equations; lia).
  replace ((((x `div` 10) `div` 10) `div` 10) `div` 10)%N with 0%N
    by (zify; Z.to_euclidean_division_equations; lia).
  rewrite pretty_N_go_0. eauto.
Qed.

Lemma month_two_characters (m : Z) :
  1 ≤ m ≤ 12 → ∃ a b, Str.padStart2 (pretty m) = String a (String b "").
Proof.
  intros Hm.
  assert (m = 1 ∨ m = 2 ∨ m = 3 ∨ m = 4 ∨ m = 5 ∨ m = 6 ∨ m = 7 ∨ m = 8
          ∨ m = 9 ∨ m = 10 ∨ m = 11 ∨ m = 12) as Hcases by lia.
  repeat destruct Hcases as [->|Hcases]; try subst m;
    vm_compute; eauto.
Qed.

Lemma month_padding_injective (m m' : Z) :
  1 ≤ m ≤ 12 → 1 ≤ m' ≤ 12 →
  Str.padStart2 (pretty m) = Str.padStart2 (pretty m') → m = m'.
Proof.
  intros Hm Hm'.
  assert (m = 1 ∨ m = 2 ∨ m = 3 ∨ m = 4 ∨ m = 5 ∨ m = 6 ∨ m = 7 ∨ m = 8
          ∨ m = 9 ∨ m = 10 ∨ m = 11 ∨ m = 12) as Hcases by lia.
  assert (m' = 1 ∨ m' = 2 ∨ m' = 3 ∨ m' = 4 ∨ m' = 5 ∨ m' = 6 ∨ m' = 7
          ∨ m' = 8 ∨ m' = 9 ∨ m' = 10 ∨ m' = 11 ∨ m' = 12) as Hcases' by lia.
  clear Hm Hm'.
  repeat destruct Hcases as [->|Hcases]; try subst m;
    repeat destruct Hcases' as [->|Hcases']; try subst m';
    vm_compute; intros H; first [reflexivity | discriminate H].
Qed.

(** X15. Against an Entry whose birth-date column holds an ISO date
    (YYYY-MM-DD, four-digit year), a candidate with a numeric birth year of
    four digits and a numeric birth month passes the date-of-birth filter
    exactly when its year and month are those of the Entry's date; neither
    day plays a part. *)
Theorem date_of_birth_iso (parameters : Parameters) (entry : Entry.t)
    (y m y' m' d' : Z) (d : Value) :
  truthy (dateOfBirthField parameters) = true →
  Entry.data entry !! to_string (dateOfBirthField parameters)
  = Some (iso_date y' m' d') →
  1000 ≤ y ≤ 9999 → 1000 ≤ y' ≤ 9999 → 1 ≤ m ≤ 12 → 1 ≤ m' ≤ 12 →
  byDateOfBirth parameters entry (born_on y m d) = true ↔ y = y' ∧ m = m'.
Proof.
  intros Hfield Hvalue Hy Hy' Hm Hm'.
  destruct (pretty_four_digits y' Hy') as (a & b & c & e & Hyear).
  destruct (month_two_characters m' Hm') as (f & g & Hmonth).
  assert (Hcol : column entry (dateOfBirthField parameters)
                 = VStr (iso_date y' m' d'))
    by (unfold column; rewrite Hvalue; done).
  assert (Hfirst : Str.slice 0 4 (iso_date y' m' d') = pretty y')
    by (unfold iso_date; rewrite Hyear; reflexivity).
  assert (Hsecond : Str.slice 5 7 (iso_date y' m' d')
                    = Str.padStart2 (pretty m'))
    by (unfold iso_date; rewrite Hyear, Hmonth; reflexivity).
  assert (Hfilled : truthy (VStr (iso_date y' m' d')) = true)
    by (unfold iso_date; rewrite Hyear; reflexivity).
  unfold byDateOfBirth. rewrite Hfield, Hcol, Hfilled.
  cbn [negb orb dob_field born_on date_of_birth year month truthy to_string].
  destruct (Z.eqb_spec y 0) as [?|_]; [lia|].
  destruct (Z.eqb_spec m 0) as [?|_]; [lia|].
  cbn [negb orb]. rewrite Hfirst, Hsecond.
  rewrite andb_true_iff, !strict_eq_VStr. split.
  - intros [Hyy Hmm]. split.
    + by apply (inj pretty).
    + by apply month_padding_injective.
  - by intros [-> ->].
Qed.

Lemma date_of_birth_iso_witness :
  byDateOfBirth with_birth_dates
    {| Entry.data := {[ "dateOfBirth" := iso_date 1980 5 17 ]};
       Entry.line := 1 |}
    (born_on 1980 5 VUndefined) = true
  ↔ 1980 = 1980 ∧ 5 = 5.
Proof.
  apply (date_of_birth_iso with_birth_dates
           {| Entry.data := {[ "dateOfBirth" := iso_date 1980 5 17 ]};
              Entry.line := 1 |} 1980 5 1980 5 17 VUndefined);
    first [reflexivity | lia].
Defined.

(** ** The officer's identifier *)

Lemma split_without_separator (sep : ascii) (s : string) :
  all_chars (λ c, negb (bool_decide (c = sep))) s = true →
  Str.split sep s = [s].
Proof.
  induction s as [|c s IH]; [done|]. cbn [all_chars Str.split].
  intros [Hc Hs]%andb_true_iff. apply negb_true_iff in Hc. rewrite Hc.
  rewrite (IH Hs). done.
Qed.

Lemma split_at_separator (sep : ascii) (piece s : string) :
  all_chars (λ c, negb (bool_decide (c = sep))) piece = true →
  Str.split sep (piece +:+ String sep s) = piece :: Str.split sep s.
Proof.
  induction piece as [|c piece IH].
  - intros _. change ("" +:+ String sep s) with (String sep s).
    cbn [Str.split]. by rewrite bool_decide_eq_true_2.
  - cbn [all_chars]. intros [Hc Hp]%andb_true_iff.
    apply negb_true_iff in Hc.
    change (String c piece +:+ String sep s)
      with (String c (piece +:+ String sep s)).
    cbn [Str.split]. rewrite Hc, (IH Hp). done.
Qed.

(** X16. For a candidate whose own link is "/", a segment, "/", an
    identifier (neither containing '/'), possibly followed by "/" and
    more, the officer's ID is that identifier.  For a link without any '/'
    the ID is [undefined]. *)
Theorem officerID_of_link (segment id more : string) :
  all_chars not_slash segment = true →
  all_chars not_slash id = true →
  officerID (linked ("/" +:+ segment +:+ "/" +:+ id)) = Ok (VStr id)
  ∧ officerID (linked ("/" +:+ segment +:+ "/" +:+ id +:+ "/" +:+ more))
    = Ok (VStr id)
  ∧ officerID (linked id) = Ok VUndefined.
Proof.
  intros Hsegment Hid. unfold officerID, linked. cbn [links self].
  split; [|split].
  - change ("/" +:+ segment +:+ "/" +:+ id)
      with ("" +:+ String "/" (segment +:+ String "/" id)).
    rewrite (split_at_separator "/" "") by done.
    rewrite (split_at_separator "/" segment) by exact Hsegment.
    rewrite (split_without_separator "/" id) by exact Hid. reflexivity.
  - change ("/" +:+ segment +:+ "/" +:+ id +:+ "/" +:+ more)
      with ("" +:+ String "/" (segment +:+ String "/" (id +:+ String "/" more))).
    rewrite (split_at_separator "/" "") by done.
    rewrite (split_at_separator "/" segment) by exact Hsegment.
    rewrite (split_at_separator "/" id) by exact Hid. reflexivity.
  - rewrite (split_without_separator "/" id) by exact Hid. reflexivity.
Qed.

Lemma officerID_of_link_witness :
  officerID (linked ("/" +:+ "officers" +:+ "/" +:+ "abc123" +:+ "/"
                     +:+ "appointments"))
  = Ok (VStr "abc123").
Proof.
  apply (officerID_of_link "officers" "abc123" "appointments"); reflexivity.
Defined.

(** * Properties of the OpenCorporates reconciler *)

Example opencorporates_example :
  OpenCorporates.run british (replying 200 [director])
    {[ "individualName" := "John Smith"; "individualJurisdiction" := "us_de" ]}
  = Fulfilled [[("officerName", VStr "JOHN SMITH");
                ("officerPosition", VStr "director");
                ("companyName", VStr "ACME LTD");
                ("companyNumber", VStr "01234567")]]
  ∧ OpenCorporates.locate british
      {[ "individualName" := "John Smith"; "individualJurisdiction" := "us_de" ]}
    = Ok {| OpenCorporates.Location.uri :=
              "https://api.opencorporates.com/v0.4.5/officers/search?q=John Smith&jurisdiction_code=gb&api_token=T";
            OpenCorporates.Location.query :=
              {| OpenCorporates.Query.individualName := "John Smith";
                 OpenCorporates.Query.individualJurisdiction := VStr " gb " |} |}.
Proof. split; reflexivity. Qed.

(** X17. [locate] of the OpenCorporates reconciler succeeds exactly when the
    Entry has a non-empty individual name and the configured jurisdiction,
    if truthy, is a string.  The location it returns keeps the name as it
    came, and its jurisdiction is the configured one when that is truthy
    and the Entry's own otherwise.  Without a name it throws
    'No individual name given!'. *)
Theorem opencorporates_locate (parameters : OpenCorporates.Parameters)
    (entry : gmap string string) :
  ((∃ location, OpenCorporates.locate parameters entry = Ok location)
   ↔ (∃ name, entry !! "individualName" = Some name ∧ name ≠ "")
     ∧ (truthy (OpenCorporates.jurisdiction parameters) = true →
        ∃ j, OpenCorporates.jurisdiction parameters = VStr j))
  ∧ (∀ location,
       OpenCorporates.locate parameters entry = Ok location →
       entry !! "individualName"
       = Some (OpenCorporates.Query.individualName
                 (OpenCorporates.Location.query location))
       ∧ OpenCorporates.Query.individualJurisdiction
           (OpenCorporates.Location.query location)
         = if truthy (OpenCorporates.jurisdiction parameters)
           then OpenCorporates.jurisdiction parameters
           else of_option (entry !! "individualJurisdiction"))
  ∧ (entry !! "individualName" = None ∨ entry !! "individualName" = Some "" →
     OpenCorporates.locate parameters entry
     = Throw (Error "No individual name given!")).
Proof.
  unfold OpenCorporates.locate, OpenCorporates.or_else.
  destruct (entry !! "individualName") as [name|] eqn:Hname.
  2:{ split; [|split]; [|done|done].
      split; [by intros [? ?] | by intros [[? [? ?]] _]]. }
  destruct (decide (name = "")) as [->|Hne].
  { cbn. split; [|split]; [|done|done].
    split; [by intros [? ?] | by intros [[? [[= <-] ?]] _]]. }
  assert (Htruthy : negb (truthy (VStr name)) = false)
    by (cbn; rewrite bool_decide_eq_false_2 by done; done).
  rewrite Htruthy.
  destruct (truthy (OpenCorporates.jurisdiction parameters)) eqn:Hconfigured.
  - destruct (OpenCorporates.jurisdiction parameters) as [| |b|z|j] eqn:Hj;
      try discriminate Hconfigured;
      rewrite Hconfigured; cbn [OpenCorporates.trimmed rbind].
    1-2: split; [|split]; [|done|by intros [?|[= ?]]];
         split; [by intros [? ?] | intros [_ Hstring];
                 by destruct (Hstring eq_refl)].
    split; [|split].
    + split; [intros _; split; eauto | intros _; eauto].
    + intros location [= <-]. done.
    + by intros [?|[= ?]].
  - destruct (entry !! "individualJurisdiction") as [own|];
      cbn [of_option]; [destruct (truthy (VStr own))|];
      cbn [truthy OpenCorporates.trimmed rbind].
    all: split; [|split];
           [split; [intros _; split; [eauto | done] | intros _; eauto]
           |intros location [= <-]; done
           |by intros [?|[= ?]]].
Qed.

Lemma opencorporates_locate_witness :
  OpenCorporates.locate anonymous {[ "individualName" := "" ]}
  = Throw (Error "No individual name given!").
Proof.
  apply (opencorporates_locate anonymous {[ "individualName" := "" ]}).
  right. reflexivity.
Defined.

(** X18. [parse] of the OpenCorporates reconciler treats an empty result as
    an error: with no officers it throws 'Individual not found: ' followed
    by the name searched for (and the jurisdiction in brackets, if any).
    Whenever it returns, there is at least one row, and the rows are those
    of the officers, one each, in the order of the answer; it returns
    whenever there is at least one officer and every officer has a
    company. *)
Theorem opencorporates_parse (response : OpenCorporates.HttpResponse.t) :
  let officers :=
    OpenCorporates.Reply.officers (OpenCorporates.HttpResponse.reply response) in
  let query :=
    OpenCorporates.Location.query (OpenCorporates.HttpResponse.request response) in
  (officers = [] →
   OpenCorporates.parse response
   = Throw (Error ("Individual not found: "
                   +:+ OpenCorporates.Query.individualName query
                   +:+ OpenCorporates.in_brackets
                         (OpenCorporates.Query.individualJurisdiction query))))
  ∧ (∀ rows,
       OpenCorporates.parse response = Ok rows →
       rows ≠ []
       ∧ Forall2 (λ officer r, OpenCorporates.row officer = Ok r) officers rows)
  ∧ (officers ≠ [] →
     Forall (λ officer, is_Some (OpenCorporates.Officer.company officer))
       officers →
     ∃ rows, OpenCorporates.parse response = Ok rows).
Proof.
  intros officers query. unfold OpenCorporates.parse. fold officers query.
  split; [|split].
  - intros ->. reflexivity.
  - intros rows. destruct officers as [|officer rest] eqn:Hofficers; [done|].
    cbn [length Nat.eqb]. intros Hrows.
    apply mapR_Ok_Forall2 in Hrows. split; [|done].
    intros ->. by apply Forall2_nil_inv_r in Hrows.
  - intros Hsome Hcompanies.
    destruct officers as [|officer rest] eqn:Hofficers; [done|].
    cbn [length Nat.eqb]. apply mapR_total.
    eapply Forall_impl; [exact Hcompanies|].
    intros o [company Hcompany]. unfold OpenCorporates.row.
    rewrite Hcompany. eauto.
Qed.

Lemma opencorporates_parse_witness :
  OpenCorporates.parse
    {| OpenCorporates.HttpResponse.reply :=
         {| OpenCorporates.Reply.statusCode := 200;
            OpenCorporates.Reply.officers := [] |};
       OpenCorporates.HttpResponse.request :=
         {| OpenCorporates.Location.uri := "u";
            OpenCorporates.Location.query :=
              {| OpenCorporates.Query.individualName := "John Smith";
                 OpenCorporates.Query.individualJurisdiction := VStr "gb" |} |} |}
  = Throw (Error "Individual not found: John Smith (gb)").
Proof.
  apply (opencorporates_parse
           {| OpenCorporates.HttpResponse.reply :=
                {| OpenCorporates.Reply.statusCode := 200;
                   OpenCorporates.Reply.officers := [] |};
              OpenCorporates.HttpResponse.request :=
                {| OpenCorporates.Location.uri := "u";
                   OpenCorporates.Location.query :=
                     {| OpenCorporates.Query.individualName := "John Smith";
                        OpenCorporates.Query.individualJurisdiction :=
                          VStr "gb" |} |} |}).
  reflexivity.
Defined.

Lemma opencorporates_locate_missing (parameters : OpenCorporates.Parameters)
    (entry : gmap string string) :
  entry !! "individualName" = None ∨ entry !! "individualName" = Some "" →
  OpenCorporates.locate parameters entry
  = Throw (Error "No individual name given!").
Proof.
  unfold OpenCorporates.locate. by intros [-> | ->].
Qed.

(** X19. [run] of the OpenCorporates reconciler.  Without an individual name
    it rejects with 'No individual name given!' whatever the service would
    answer.  It is fulfilled with rows exactly when the Entry is located,
    the call is answered with a status below 400, the answer has at least
    one officer and every officer yields a row; the rows are then never
    empty.  For a located Entry, a transport error rejects with that error,
    status 401 with the invalid-token error, and every other status from
    400 up (429 included) with 'Error <status>: <name>' and the
    jurisdiction in brackets. *)
Theorem opencorporates_run (parameters : OpenCorporates.Parameters)
    (remote : OpenCorporates.Location.t → Result OpenCorporates.Reply.t)
    (input : gmap string string) :
  (input !! "individualName" = None ∨ input !! "individualName" = Some "" →
   OpenCorporates.run parameters remote input
   = Rejected (Error "No individual name given!"))
  ∧ (∀ rows,
       OpenCorporates.run parameters remote input = Fulfilled rows
       ↔ ∃ location reply,
           OpenCorporates.locate parameters input = Ok location
           ∧ remote location = Ok reply
           ∧ OpenCorporates.Reply.statusCode reply < 400
           ∧ OpenCorporates.Reply.officers reply ≠ []
           ∧ mapR OpenCorporates.row (OpenCorporates.Reply.officers reply)
             = Ok rows)
  ∧ (∀ rows, OpenCorporates.run parameters remote input = Fulfilled rows →
             rows ≠ [])
  ∧ (∀ location,
       OpenCorporates.locate parameters input = Ok location →
       (∀ e, remote location = Throw e →
             OpenCorporates.run parameters remote input = Rejected e)
       ∧ (∀ reply, remote location = Ok reply →
            (OpenCorporates.Reply.statusCode reply = 401 →
             OpenCorporates.run parameters remote input
             = Rejected (Error ("API token is invalid: "
                                +:+ to_string (OpenCorporates.apiToken
                                                 parameters))))
            ∧ (400 ≤ OpenCorporates.Reply.statusCode reply →
               OpenCorporates.Reply.statusCode reply ≠ 401 →
               OpenCorporates.run parameters remote input
               = Rejected
                   (Error ("Error "
                           +:+ pretty (OpenCorporates.Reply.statusCode reply)
                           +:+ ": "
                           +:+ OpenCorporates.Query.individualName
                                 (OpenCorporates.Location.query location)
                           +:+ OpenCorporates.in_brackets
                                 (OpenCorporates.Query.individualJurisdiction
                                    (OpenCorporates.Location.query
                                       location))))))).
Proof.
  assert (Hiff : ∀ rows,
    OpenCorporates.run parameters remote input = Fulfilled rows
    ↔ ∃ location reply,
        OpenCorporates.locate parameters input = Ok location
        ∧ remote location = Ok reply
        ∧ OpenCorporates.Reply.statusCode reply < 400
        ∧ OpenCorporates.Reply.officers reply ≠ []
        ∧ mapR OpenCorporates.row (OpenCorporates.Reply.officers reply)
          = Ok rows).
  { intros rows. unfold OpenCorporates.run, OpenCorporates.http,
      OpenCorporates.parse.
    destruct (OpenCorporates.locate parameters input) as [location|e];
      cbn [rbind]; [|split; [done | by intros (? & ? & ? & _)]].
    destruct (remote location) as [reply|e] eqn:Hremote; cbn [rbind];
      [|split; [done | intros (? & ? & [= <-] & H & _); congruence]].
    destruct (Z.eqb_spec (OpenCorporates.Reply.statusCode reply) 401)
      as [H401|H401]; cbn [rbind].
    { split; [done|]. intros (? & ? & [= <-] & H & Hlow & _).
      rewrite Hremote in H; simplify_eq; try lia. }
    destruct (Z.geb_spec (OpenCorporates.Reply.statusCode reply) 400)
      as [Hhigh|Hlow]; cbn [rbind].
    { split; [done|]. intros (? & ? & [= <-] & H & Hlow & _).
      rewrite Hremote in H; simplify_eq; try lia. }
    cbn [OpenCorporates.HttpResponse.reply].
    destruct (OpenCorporates.Reply.officers reply) as [|officer rest]
      eqn:Hofficers; cbn [length Nat.eqb].
    { split; [done|]. intros (? & ? & [= <-] & H & _ & Hsome & _).
      rewrite Hremote in H; simplify_eq; try congruence. }
    destruct (mapR OpenCorporates.row (officer :: rest)) as [out|e] eqn:Hrows.
    - split.
      + intros [= <-]. exists location, reply. rewrite Hofficers. eauto 10.
      + intros (? & ? & [= <-] & H & _ & _ & Hout).
        rewrite Hremote in H; simplify_eq.
        rewrite Hofficers, Hrows in Hout; by simplify_eq.
    - split; [done|]. intros (? & ? & [= <-] & H & _ & _ & Hout).
      rewrite Hremote in H; simplify_eq.
      rewrite Hofficers, Hrows in Hout; done. }
  split; [|split; [exact Hiff|split]].
  - intros Hname. unfold OpenCorporates.run.
    rewrite (opencorporates_locate_missing parameters input Hname).
    reflexivity.
  - intros rows (location & reply & _ & _ & _ & Hsome & Hrows)%Hiff.
    intros ->. destruct (OpenCorporates.Reply.officers reply); [done|].
    apply mapR_Ok_Forall2 in Hrows. by apply Forall2_nil_inv_r in Hrows.
  - intros location Hlocate. unfold OpenCorporates.run, OpenCorporates.http.
    rewrite Hlocate. cbn [rbind]. split.
    + intros e ->. reflexivity.
    + intros reply ->. cbn [rbind]. split.
      * intros ->. reflexivity.
      * intros Hhigh Hne.
        destruct (Z.eqb_spec (OpenCorporates.Reply.statusCode reply) 401);
          [done|].
        destruct (Z.geb_spec (OpenCorporates.Reply.statusCode reply) 400);
          [reflexivity | lia].
Qed.

Lemma opencorporates_run_witness :
  OpenCorporates.run anonymous (replying 200 [director])
    {[ "individualName" := "" ]}
  = Rejected (Error "No individual name given!").
Proof.
  apply (opencorporates_run anonymous (replying 200 [director])
           {[ "individualName" := "" ]}).
  right. reflexivity.
Defined.

(** * The pipeline over several pages *)

Lemma flatMap_parse_pages (parameters : Parameters) (entry : Entry.t)
    (responses : list Response.t) (rowss : list (list OutputRow)) :
  Forall2 (λ response rows,
             parse parameters (Some response) entry = Ok (Some rows))
    responses rowss →
  flatMap_parse parameters (Some <$> responses) entry
  = Ok (Some <$> concat rowss).
Proof.
  induction 1 as [|response rows responses rowss Hparse _ IH]; [done|].
  cbn [fmap list_fmap flatMap_parse concat].
  change (list_fmap _ _ Some responses) with (Some <$> responses).
  rewrite Hparse, IH. cbn [rbind]. by rewrite fmap_app.
Qed.

(** X20. When the page numbers can be built (ceil(T / 100) <= 2^32 - 1), the
    first call and all follow-up calls succeed (status below 400) and
    [parse] returns for every page, the run resolves with the rows
    of page 1, then those of page 2, and so on in page order, whatever the
    order in which the follow-up calls complete; nothing is alerted. *)
Theorem run_all_pages (parameters : Parameters) (http : Query.t → Reply.t)
    (callImportance : string) (completion : list nat) (entry : Entry.t)
    (s s1 : State) (query : Query.t) (rowss : list (list OutputRow))
    (pageNumbers_ : list Z) :
  let first := response_of query (http query) in
  let queries := fst (pageQueries parameters first pageNumbers_ s1) in
  let pages := first :: ((λ q, response_of q (http q)) <$> queries) in
  locate parameters entry s = (Some query, s1) →
  Reply.status (http query) < 400 →
  100 < total_results (Reply.data (http query)) →
  pageNumbers (ceil_div_100 (total_results (Reply.data (http query))))
  = Ok pageNumbers_ →
  completion ≡ₚ seq 0 (length queries) →
  (∀ q, q ∈ queries → Reply.status (http q) < 400) →
  Forall2 (λ response rows,
             parse parameters (Some response) entry = Ok (Some rows))
    pages rowss →
  fst (run parameters http callImportance completion entry s)
  = Fulfilled (Some (Some <$> concat rowss))
  ∧ alerts (snd (run parameters http callImportance completion entry s))
    = alerts s.
Proof.
  intros first queries pages Hlocate Hstatus Htotal Hpages Hperm Hfine Hrows.
  assert (Hnot_fatal : ∀ q, q ∈ queries → ¬ fatal http q).
  { intros q Hq [H|H]; specialize (Hfine q Hq); lia. }
  assert (Hanswers : map (answer http) queries
                     = Some <$> ((λ q, response_of q (http q)) <$> queries)).
  { rewrite <- list_fmap_compose. apply list_fmap_ext.
    intros i q Hq. cbn. unfold answer.
    assert (Hin : q ∈ queries) by (apply list_elem_of_lookup; eauto).
    specialize (Hfine q Hin).
    destruct (Z.geb_spec (Reply.status (http q)) 400); [lia | done]. }
  assert (Hquiet : concat
                     (log_at ((λ q, (answer http q,
                                     diagnostics_of http callImportance q))
                              <$> queries) <$> completion) = []).
  { apply concat_nil_Forall, Forall_fmap, Forall_forall.
    intros i _. unfold compose, log_at. rewrite list_lookup_fmap.
    destruct (queries !! i) as [q|] eqn:Hq; [|done]. cbn.
    rewrite diagnostics_of_status.
    assert (Hin : q ∈ queries) by (apply list_elem_of_lookup; eauto).
    specialize (Hfine q Hin).
    destruct (Z.leb_spec 400 (Reply.status (http q))); [lia | done]. }
  assert (Hrun :
    run parameters http callImportance completion entry s
    = (Fulfilled (Some (Some <$> concat rowss)),
       snd (pageQueries parameters first pageNumbers_ s1))).
  { rewrite (run_unfold _ _ _ _ _ _ _ _ Hlocate).
    unfold abind at 1. rewrite request_ok by done. fold first.
    unfold abind at 1.
    rewrite (paginate_run parameters http callImportance completion first s1
               pageNumbers_)
      by done.
    fold queries. rewrite Hanswers, Hquiet.
    unfold abind, settle, resolve, append_alerts. cbn [foldl].
    change (Some first :: (Some <$> ((λ q, response_of q (http q)) <$> queries)))
      with (Some <$> pages).
    rewrite (flatMap_parse_pages _ _ _ _ Hrows). reflexivity. }
  rewrite Hrun. split; [done|]. cbn [snd].
  rewrite pageQueries_alerts.
  revert Hlocate. unfold locate.
  destruct (column entry _); try done.
  destruct (negb _); [done|].
  destruct (apiKeysRotated parameters s) as [key s'] eqn:Hkey.
  intros [= _ <-]. unfold apiKeysRotated in Hkey. by simplify_eq.
Qed.

Lemma run_all_pages_witness :
  fst (run three_keys (answering 200 {| total_results := 250;
                                        items := [john_smith] |})
         "warning" [1; 0]%nat (named "John Smith" 3) initial)
  = Fulfilled
      (Some (Some <$> concat
               (replicate 3 [[("officerID", VStr "abc123");
                              ("officerName", VStr "John Smith");
                              ("officerDateOfBirth", VStr "1980-5");
                              ("officerAddress", VStr "1 Road")]]))).
Proof.
  refine (proj1 (run_all_pages three_keys
                   (answering 200 {| total_results := 250;
                                     items := [john_smith] |})
                   "warning" [1; 0]%nat (named "John Smith" 3) initial
                   (in_state 1 [])
                   {| Query.url := "https://api.company-information.service.gov.uk/search/officers";
                      Query.auth := {| username := VStr "A"; password := "" |};
                      Query.params := {| q := "John Smith"; items_per_page := 100;
                                         start_index := None |};
                      Query.passthrough :=
                        {| individualName := "John Smith"; page := 1 |} |}
                   _ [1; 2] _ _ _ _ _ _ _)).
  - reflexivity.
  - cbn. lia.
  - cbn. lia.
  - reflexivity.
  - apply perm_swap.
  - intros q _. cbn. lia.
  - repeat constructor.
Defined.
